(** * Fuzzy additive search (backend/functions/src/utils/additiveSearchUtils.ts)

    A shallow embedding of the additive-matching engine and the properties
    its specification states about it.

    Modelling conventions.
    - A JavaScript string is the list of its UTF-16 code units ([jsstring]);
      [length], [===] and [includes] are those of that list.  Literals are
      written as UTF-8 text and decoded by [js].
    - A regular expression of the source that is a single character class
      under the [g] flag is the predicate of the class, and [replace] with
      it is [replaceClass].
    - [String.prototype.toLowerCase] is the method of the class
      [CaseMapping]; the development relies on two facts about it only.
    - A JavaScript number that holds a score is an exact rational ([Q]);
      binary64 rounding is not modelled.
    - Exceptions are the [Throw] branch of [outcome]; a settled promise is
      [Fulfilled] or [Rejected]. *)

From Stdlib Require Import ZArith QArith Qminmax List Bool Lia String Ascii.
From Stdlib Require Import Sorting.Permutation Sorting.Sorted.
Import ListNotations.

Local Open Scope Z_scope.

(* ================================================================== *)
(** * JavaScript strings *)
(* ================================================================== *)

Module JS.

Definition jsstring := list Z.

(** ** UTF-8 literals to UTF-16 code units *)

Definition byte_of (a : ascii) : Z := Z.of_N (N_of_ascii a).

Fixpoint bytes_of (s : string) : list Z :=
  match s with
  | EmptyString => []
  | String a s' => byte_of a :: bytes_of s'
  end.

Definition cont (b : Z) : Z := Z.land b 0x3F.

Definition units_of_codepoint (cp : Z) : jsstring :=
  if cp <? 0x10000 then [cp]
  else let v := cp - 0x10000 in
       [0xD800 + Z.shiftr v 10; 0xDC00 + Z.land v 0x3FF].

Fixpoint decode (bs : list Z) : jsstring :=
  match bs with
  | [] => []
  | b0 :: r0 =>
    if b0 <? 0x80 then b0 :: decode r0
    else match r0 with
    | [] => [0xFFFD]
    | b1 :: r1 =>
      if b0 <? 0xE0 then
        (Z.shiftl (Z.land b0 0x1F) 6 + cont b1) :: decode r1
      else match r1 with
      | [] => [0xFFFD]
      | b2 :: r2 =>
        if b0 <? 0xF0 then
          (Z.shiftl (Z.land b0 0x0F) 12 + Z.shiftl (cont b1) 6 + cont b2)
            :: decode r2
        else match r2 with
        | [] => [0xFFFD]
        | b3 :: r3 =>
          units_of_codepoint
            (Z.shiftl (Z.land b0 0x07) 18 + Z.shiftl (cont b1) 12
             + Z.shiftl (cont b2) 6 + cont b3) ++ decode r3
        end
      end
    end
  end.

(** [js lit] is the JavaScript string written by the literal [lit]. *)
Definition js (s : string) : jsstring := decode (bytes_of s).

(** ** Equality, length, substring search *)

Fixpoint streq (a b : jsstring) : bool :=
  match a, b with
  | [], [] => true
  | x :: a', y :: b' => (x =? y) && streq a' b'
  | _, _ => false
  end.

Definition len (s : jsstring) : Z := Z.of_nat (List.length s).

Fixpoint startsWith (s p : jsstring) : bool :=
  match p, s with
  | [], _ => true
  | _ :: _, [] => false
  | y :: p', x :: s' => (x =? y) && startsWith s' p'
  end.

(** [s.includes(p)] *)
Fixpoint includes (s p : jsstring) : bool :=
  startsWith s p ||
  match s with
  | [] => false
  | _ :: s' => includes s' p
  end.

(** ** Character classes of the regular expressions in the source *)

Definition inRange (lo hi c : Z) : bool := (lo <=? c) && (c <=? hi).

Definition memC (c : Z) (l : list Z) : bool := existsb (Z.eqb c) l.

(** [\d] *)
Definition isDigit (c : Z) : bool := inRange 48 57 c.

(** [\w], without the [u] and [i] flags: [A-Za-z0-9_]. *)
Definition isWord (c : Z) : bool :=
  inRange 65 90 c || inRange 97 122 c || isDigit c || (c =? 95).

(** [가-힣] : U+AC00 .. U+D7A3 *)
Definition isHangul (c : Z) : bool := inRange 0xAC00 0xD7A3 c.

(** [\s] : WhiteSpace and LineTerminator of ECMAScript. *)
Definition isSpace (c : Z) : bool :=
  memC c [9; 10; 11; 12; 13; 32; 0xA0; 0x1680; 0x2028; 0x2029; 0x202F;
          0x205F; 0x3000; 0xFEFF]
  || inRange 0x2000 0x200A c.

(** The class of round, square and curly brackets, the double quote and
    the apostrophe (first [replace] of [normalizeText]). *)
Definition isBracketOrQuote (c : Z) : bool :=
  memC c [40; 41; 91; 93; 123; 125; 34; 39].

Definition middleDot : Z := 0xB7.
Definition bullet : Z := 0x2022.

(** [[\s\-_·•]] *)
Definition isSeparator (c : Z) : bool :=
  isSpace c || memC c [45; 95; middleDot; bullet].

(** [[^\w가-힣]] *)
Definition isNotWordOrHangul (c : Z) : bool := negb (isWord c || isHangul c).

(** [s.replace(/[class]/g, r)] *)
Definition replaceClass (p : Z -> bool) (r s : jsstring) : jsstring :=
  flat_map (fun c => if p c then r else [c]) s.

(** ** Case mapping *)

(** Characters that no case mapping touches: Basic Latin other than [A-Z],
    and Hangul syllables. *)
Definition uncased (c : Z) : bool :=
  (inRange 0 127 c && negb (inRange 65 90 c)) || isHangul c.

(** [String.prototype.toLowerCase] with the two facts used about it: its
    result has no Basic Latin capital, and a string of uncased characters
    is returned as it is. *)
Class CaseMapping := {
  toLowerCase : jsstring -> jsstring;
  toLowerCase_no_capital :
    forall s c, In c (toLowerCase s) -> inRange 65 90 c = false;
  toLowerCase_uncased :
    forall s, forallb uncased s = true -> toLowerCase s = s
}.

(** The mapping on Basic Latin; it is [toLowerCase] on every string whose
    cased letters are all in [A-Za-z]. *)
Definition lowerUnit (c : Z) : Z := if inRange 65 90 c then c + 32 else c.

Definition asciiLower (s : jsstring) : jsstring := map lowerUnit s.

End JS.
Import JS.

(* ================================================================== *)
(** * Numbers, arrays, sets and maps of the runtime *)
(* ================================================================== *)

Module Runtime.

Local Open Scope Q_scope.

Definition Qltb (a b : Q) : bool := negb (Qle_bool b a).

(** [Array.prototype.sort(cmp)]: the sort is stable, and [cmp a b > 0]
    puts [b] before [a].  Insertion from the right is the stable order for
    every comparator that is a consistent ordering. *)
Fixpoint insertSorted {A} (cmp : A -> A -> Q) (x : A) (l : list A) : list A :=
  match l with
  | [] => [x]
  | y :: l' => if Qltb 0 (cmp x y) then y :: insertSorted cmp x l'
               else x :: y :: l'
  end.

Fixpoint jsSort {A} (cmp : A -> A -> Q) (l : list A) : list A :=
  match l with
  | [] => []
  | x :: l' => insertSorted cmp x (jsSort cmp l')
  end.

(** [x] may stand right before [y] in an array sorted with [cmp]. *)
Definition inOrder {A} (cmp : A -> A -> Q) (x y : A) : Prop :=
  Qltb 0 (cmp x y) = false.

(** [arr.slice(0, n)] *)
Definition slice0 {A} (n : nat) (l : list A) : list A := firstn n l.

(** [new Set(iterable)], in insertion order: a value already present is
    not added again. *)
Fixpoint setAddAll {A} (eqb : A -> A -> bool) (seen l : list A) : list A :=
  match l with
  | [] => seen
  | x :: l' =>
    if existsb (eqb x) seen then setAddAll eqb seen l'
    else setAddAll eqb (seen ++ [x]) l'
  end.

Definition newSet {A} (eqb : A -> A -> bool) (l : list A) : list A :=
  setAddAll eqb [] l.

Definition size {A} (s : list A) : Z := Z.of_nat (List.length s).

(** [new Map()], keyed by strings, in insertion order: [set] on a key that
    is present replaces the value and keeps the key's place. *)
Definition jsmap (V : Type) := list (jsstring * V).

Fixpoint mapGet {V} (m : jsmap V) (k : jsstring) : option V :=
  match m with
  | [] => None
  | (k', v) :: m' => if streq k' k then Some v else mapGet m' k
  end.

Fixpoint mapSet {V} (m : jsmap V) (k : jsstring) (v : V) : jsmap V :=
  match m with
  | [] => [(k, v)]
  | (k', v') :: m' =>
    if streq k' k then (k', v) :: m' else (k', v') :: mapSet m' k v
  end.

Definition mapValues {V} (m : jsmap V) : list V := map snd m.

End Runtime.
Import Runtime.

(* ================================================================== *)
(** * Text normalizer *)
(* ================================================================== *)

Module Normalizer.

(** The [corrections] object literal of [correctOCRErrors], in the order
    the properties are written. *)
Definition corrections : list (Z * jsstring) :=
  [ (0x3147, js "o"); (0x3141, js "m"); (0x3134, js "n"); (0x3139, js "r");
    (0x3145, js "s"); (0x314C, js "t"); (0x314D, js "p"); (0x314E, js "h");
    (49, js "l"); (108, js "1"); (48, js "o"); (111, js "0");
    (53, js "s"); (115, js "5");
    (middleDot, []); (bullet, []); (0xFF0D, js "-"); (0x2014, js "-");
    (0xA0, js " "); (0x2009, js " "); (0x200B, []) ].

(** [Object.entries]: the keys that are array indices come first, in
    ascending numeric order, then the other keys in the order of creation.
    Every key here is one character, so the array indices are the digits. *)
Fixpoint insertKey (e : Z * jsstring) (l : list (Z * jsstring)) :=
  match l with
  | [] => [e]
  | e' :: l' => if fst e <=? fst e' then e :: l else e' :: insertKey e l'
  end.

Definition objectEntries (o : list (Z * jsstring)) : list (Z * jsstring) :=
  fold_right insertKey [] (filter (fun e => isDigit (fst e)) o)
  ++ filter (fun e => negb (isDigit (fst e))) o.

(** [corrected.replace(new RegExp(wrong, 'g'), correct)] for a pattern
    that is one ordinary character. *)
Definition replaceChar (wrong : Z) (correct s : jsstring) : jsstring :=
  replaceClass (Z.eqb wrong) correct s.

(** The [forEach] over a list of rows. *)
Definition applyRows (rows : list (Z * jsstring)) (s : jsstring) : jsstring :=
  fold_left (fun corrected e => replaceChar (fst e) (snd e) corrected) rows s.

Definition correctOCRErrors (text : jsstring) : jsstring :=
  applyRows (objectEntries corrections) text.

(** The keys of the table in the order they are visited. *)
Definition correctionKeys : list Z := map fst (objectEntries corrections).

(** What the table does to one character once every row has been applied
    (the statement of the collapse of the lookalike pairs). *)
Definition ocrImage (c : Z) : jsstring :=
  if memC c [49; 108] then js "1"
  else if memC c [48; 111; 0x3147] then js "0"
  else if memC c [53; 115; 0x3145] then js "5"
  else if c =? 0x3141 then js "m"
  else if c =? 0x3134 then js "n"
  else if c =? 0x3139 then js "r"
  else if c =? 0x314C then js "t"
  else if c =? 0x314D then js "p"
  else if c =? 0x314E then js "h"
  else if memC c [middleDot; bullet; 0x200B] then []
  else if memC c [0xFF0D; 0x2014] then js "-"
  else if memC c [0xA0; 0x2009] then js " "
  else [c].

Section WithCaseMapping.
Context {CM : CaseMapping}.

Definition normalizeText (text : jsstring) : jsstring :=
  replaceClass isNotWordOrHangul []
    (replaceClass isSeparator []
      (replaceClass isBracketOrQuote [] (toLowerCase text))).

(** The two character sets and their Jaccard quotient. *)
Definition intersectionOf (set1 set2 : list Z) : list Z :=
  newSet Z.eqb (filter (fun x => memC x set2) set1).

Definition unionOf (set1 set2 : list Z) : list Z :=
  newSet Z.eqb (set1 ++ set2).

Definition jaccard (n1 n2 : jsstring) : Q :=
  let set1 := newSet Z.eqb n1 in
  let set2 := newSet Z.eqb n2 in
  (inject_Z (size (intersectionOf set1 set2))
   / inject_Z (size (unionOf set1 set2)))%Q.

Definition substringBonus (n1 n2 : jsstring) : Q :=
  Qmax (if includes n1 n2 then 2 # 10 else 0)
       (if includes n2 n1 then 2 # 10 else 0).

Definition calculateStringSimilarity (s1 s2 : jsstring) : Q :=
  if streq s1 s2 then 1%Q
  else if (len s1 =? 0) || (len s2 =? 0) then 0%Q
  else
    let normalized1 := normalizeText (correctOCRErrors s1) in
    let normalized2 := normalizeText (correctOCRErrors s2) in
    if streq normalized1 normalized2 then 1%Q
    else Qmin 1 (jaccard normalized1 normalized2
                 + substringBonus normalized1 normalized2)%Q.

End WithCaseMapping.

End Normalizer.
Import Normalizer.

(* ================================================================== *)
(** * Match scorer *)
(* ================================================================== *)

Module Scorer.

(** [hazard_level] as the ranking reads it: one of the three keys of
    [hazardOrder], or [Unlisted] for a missing field and for any other
    value, which the lookup with its default of 3 treats alike.  (The
    catalog is written with the three levels only; a value that names a
    property inherited from Object.prototype is not a level of the data
    model and is not represented.) *)
Inductive hazardLevel := High | Medium | Low | Unlisted.

(** A catalog record, with the fields the search reads; the description
    fields are carried along untouched and left out. *)
Record additive := {
  id : jsstring;
  name : jsstring;
  hazard_level : hazardLevel;
  aliases : list jsstring
}.

Inductive matchKind := exact | normalized_exact | partial | fuzzy.

(** The [bestMatch] object.  Its [matchDetails] text is for display only
    and is left out. *)
Record matchInfo := {
  matchType : matchKind;
  matchScore : Q;
  matchedTerm : jsstring
}.

(** The object pushed on a hit: the entry's own properties followed by
    those of [bestMatch]. *)
Record matchResult := {
  entry : additive;
  info : matchInfo
}.

Definition resultId (r : matchResult) : jsstring := id (entry r).
Definition resultScore (r : matchResult) : Q := matchScore (info r).
Definition resultType (r : matchResult) : matchKind := matchType (info r).
Definition resultHazard (r : matchResult) : hazardLevel :=
  hazard_level (entry r).

Section WithCaseMapping.
Context {CM : CaseMapping}.

Definition normalizedOf (s : jsstring) : jsstring :=
  normalizeText (correctOCRErrors s).

(** Strategy 1 *)
Definition isExactMatch (keyword searchTerm : jsstring) : bool :=
  streq searchTerm (toLowerCase keyword).

(** Strategy 2 *)
Definition isNormalizedExact (keyword searchTerm : jsstring) : bool :=
  streq (normalizedOf searchTerm) (normalizedOf keyword)
  && (len (normalizedOf keyword) >? 2).

(** Strategy 3 *)
Definition isPartialMatch (keyword searchTerm : jsstring) : bool :=
  includes searchTerm (toLowerCase keyword)
  || includes (normalizedOf searchTerm) (normalizedOf keyword)
  || includes (toLowerCase keyword) searchTerm
  || includes (normalizedOf keyword) (normalizedOf searchTerm).

Definition longerLength (keyword searchTerm : jsstring) : Z :=
  Z.max (Z.max (len searchTerm) (len keyword))
        (Z.max (len (normalizedOf searchTerm)) (len (normalizedOf keyword))).

Definition shorterLength (keyword searchTerm : jsstring) : Z :=
  Z.min (Z.min (len searchTerm) (len keyword))
        (Z.min (len (normalizedOf searchTerm)) (len (normalizedOf keyword))).

Definition partialScore (keyword searchTerm : jsstring) : Q :=
  Qmin (9 # 10)
       ((inject_Z (shorterLength keyword searchTerm)
         / inject_Z (longerLength keyword searchTerm)) * (85 # 100))%Q.

(** Strategy 4 *)
Definition fuzzyThreshold (keyword : jsstring) : Q :=
  if len keyword >? 4 then (3 # 10)%Q else (5 # 10)%Q.

(** The loop over [allSearchTerms] of one entry, from the state
    [(bestMatch, bestScore)].  [break] returns at once, [continue] goes on
    with the next term. *)
Fixpoint scanTerms (keyword : jsstring) (terms : list jsstring)
         (bestMatch : option matchInfo) (bestScore : Q)
  : option matchInfo * Q :=
  match terms with
  | [] => (bestMatch, bestScore)
  | searchTerm :: rest =>
    if isExactMatch keyword searchTerm then
      (Some {| matchType := exact; matchScore := 1;
               matchedTerm := keyword |}, bestScore)
    else if isNormalizedExact keyword searchTerm then
      if Qltb bestScore (95 # 100) then
        scanTerms keyword rest
          (Some {| matchType := normalized_exact; matchScore := 95 # 100;
                   matchedTerm := keyword |}) (95 # 100)%Q
      else scanTerms keyword rest bestMatch bestScore
    else if isPartialMatch keyword searchTerm then
      let score := partialScore keyword searchTerm in
      if Qltb bestScore score then
        scanTerms keyword rest
          (Some {| matchType := partial; matchScore := score;
                   matchedTerm := keyword |}) score
      else scanTerms keyword rest bestMatch bestScore
    else
      let similarity := calculateStringSimilarity keyword searchTerm in
      let threshold := fuzzyThreshold keyword in
      if Qle_bool threshold similarity
         && Qltb bestScore (similarity * (7 # 10))%Q then
        scanTerms keyword rest
          (Some {| matchType := fuzzy;
                   matchScore := (similarity * (7 # 10))%Q;
                   matchedTerm := keyword |}) (similarity * (7 # 10))%Q
      else scanTerms keyword rest bestMatch bestScore
  end.

Definition allSearchTerms (a : additive) : list jsstring :=
  toLowerCase (name a) :: map toLowerCase (aliases a).

(** The body of the loop over the catalog: what one entry adds to
    [matches]. *)
Definition matchAdditive (keyword : jsstring) (a : additive)
  : list matchResult :=
  match scanTerms keyword (allSearchTerms a) None 0%Q with
  | (Some bestMatch, bestScore) =>
    if Qltb (2 # 10) bestScore
    then [ {| entry := a; info := bestMatch |} ]
    else []
  | (None, _) => []
  end.

Definition findAdditiveMatches (keyword : jsstring) (additives : list additive)
  : list matchResult :=
  flat_map (matchAdditive keyword) additives.

(** ** Deduplication and ranking *)

Definition hazardOrder (h : hazardLevel) : Z :=
  match h with
  | High => 0
  | Medium => 1
  | Low => 2
  | Unlisted => 3
  end.

(** The loop that fills [uniqueMap]. *)
Fixpoint fillUnique (uniqueMap : jsmap matchResult) (l : list matchResult)
  : jsmap matchResult :=
  match l with
  | [] => uniqueMap
  | r :: l' =>
    match mapGet uniqueMap (resultId r) with
    | None => fillUnique (mapSet uniqueMap (resultId r) r) l'
    | Some existing =>
      if Qltb (resultScore existing) (resultScore r)
      then fillUnique (mapSet uniqueMap (resultId r) r) l'
      else fillUnique uniqueMap l'
    end
  end.

(** The comparator given to [sort]. *)
Definition compareResults (a b : matchResult) : Q :=
  if negb (Qeq_bool (resultScore b) (resultScore a)) then
    (resultScore b - resultScore a)%Q
  else
    inject_Z (hazardOrder (resultHazard a) - hazardOrder (resultHazard b)).

Definition removeDuplicatesAndSort (found : list matchResult)
  : list matchResult :=
  jsSort compareResults (mapValues (fillUnique [] found)).

End WithCaseMapping.

End Scorer.
Import Scorer.

(* ================================================================== *)
(** * Keyword extractor *)
(* ================================================================== *)

Module Extractor.

Definition importantAdditiveKeywords : list jsstring :=
  [ js "산도조절제"; js "향미증진제"; js "구아검"; js "잔탄검"; js "전분"; js "변성전분";
    js "글루텐"; js "인산"; js "포도당"; js "정백당"; js "토코페롤"; js "비타민";
    js "이스트" ].

Definition commonWords : list jsstring :=
  [ js "and"; js "or"; js "the"; js "a"; js "an"; js "in"; js "on";
    js "at"; js "to"; js "for"; js "of"; js "with"; js "contains";
    js "includes"; js "less"; js "than"; js "more"; js "each";
    js "per"; js "total"; js "그리고"; js "또는"; js "및"; js "등"; js "포함";
    js "함량"; js "이하"; js "기타"; js "각종"; js "사용"; js "제품"; js "식품";
    js "국산"; js "중국산"; js "미국산"; js "호주산"; js "말레이시아산"; js "면류";
    js "스프류"; js "블럭"; js "분말"; js "추출물"; js "시즈닝"; js "베이스";
    js "양념"; js "일까지"; js "케이"; js "함은"; js "원료명" ].

Fixpoint takeWhile (p : Z -> bool) (s : jsstring) : jsstring :=
  match s with
  | [] => []
  | c :: r => if p c then c :: takeWhile p r else []
  end.

Fixpoint dropWhile (p : Z -> bool) (s : jsstring) : jsstring :=
  match s with
  | [] => []
  | c :: r => if p c then dropWhile p r else s
  end.

(** [s.trim()] *)
Definition trim (s : jsstring) : jsstring :=
  rev (dropWhile isSpace (rev (dropWhile isSpace s))).

(** [s.replace(/\s+/g, ' ')]: every maximal run of white space becomes one
    space.  [inRun] tells that the previous character was white space. *)
Fixpoint collapseSpaces (inRun : bool) (s : jsstring) : jsstring :=
  match s with
  | [] => []
  | c :: r =>
    if isSpace c then
      if inRun then collapseSpaces true r else 32 :: collapseSpaces true r
    else c :: collapseSpaces false r
  end.

(** [[^\w가-힣\s,;:·•\-]] *)
Definition isOtherSpecial (c : Z) : bool :=
  negb (isWord c || isHangul c || isSpace c
        || memC c [44; 59; 58; middleDot; bullet; 45]).

(** The class of [delimiters]: comma, line feed, semicolon, colon, middle
    dot, bullet, hyphen, slash, bar, white space and the brackets. *)
Definition isDelimiter (c : Z) : bool :=
  memC c [44; 10; 59; 58; middleDot; bullet; 45; 47; 124;
          40; 41; 91; 93; 123; 125]
  || isSpace c.

(** [s.split(/[class]+/)]: the pieces between the maximal runs of the
    class, an empty piece at an end where the string starts or ends with a
    run.  [cur] is the piece being read. *)
Fixpoint splitRuns (p : Z -> bool) (cur : jsstring) (inRun : bool)
         (s : jsstring) : list jsstring :=
  match s with
  | [] => [cur]
  | c :: r =>
    if p c then
      if inRun then splitRuns p [] true r else cur :: splitRuns p [] true r
    else splitRuns p (cur ++ [c]) false r
  end.

Definition split (p : Z -> bool) (s : jsstring) : list jsstring :=
  splitRuns p [] false s.

(** [text.match(/[가-힣]{2,}/g) || []]: the maximal runs of two or more
    Hangul syllables, from left to right. *)
Definition emitRun (cur : jsstring) : list jsstring :=
  if 2 <=? len cur then [cur] else [].

Fixpoint hangulRuns (cur : jsstring) (s : jsstring) : list jsstring :=
  match s with
  | [] => emitRun cur
  | c :: r =>
    if isHangul c then hangulRuns (cur ++ [c]) r
    else emitRun cur ++ hangulRuns [] r
  end.

(** [keyword.match] with the pattern of three groups, one or more Hangul
    syllables, one or more digits, any number of Hangul syllables: the
    groups of the leftmost match.  At a start position the first group
    takes the whole run of syllables; giving some of them back never
    helps, a digit has to follow the run. *)
Fixpoint matchNumbered (s : jsstring)
  : option (jsstring * jsstring * jsstring) :=
  match s with
  | [] => None
  | c :: r =>
    let g1 := takeWhile isHangul s in
    let after1 := dropWhile isHangul s in
    let g2 := takeWhile isDigit after1 in
    let g3 := takeWhile isHangul (dropWhile isDigit after1) in
    if isHangul c && (0 <? len g2) then Some (g1, g2, g3)
    else matchNumbered r
  end.

Section WithCaseMapping.
Context {CM : CaseMapping}.

Definition isCommonWord (word : jsstring) : bool :=
  if existsb (fun keyword =>
                includes (toLowerCase word) (toLowerCase keyword)
                || includes (toLowerCase keyword) (toLowerCase word))
             importantAdditiveKeywords
  then false
  else existsb (streq (toLowerCase word)) commonWords.

(** What the [forEach] over [rawKeywords] and [koreanWords] pushes on
    [numberedAdditives] for one keyword. *)
Definition numberedParts (keyword : jsstring) : list jsstring :=
  match matchNumbered keyword with
  | None => []
  | Some (g1, g2, g3) =>
    keyword :: (if len g1 >? 1 then [g1] else [])
            ++ (if len g3 >? 0 then [g2 ++ g3] else [])
  end.

Definition normalizeAndExtractKeywords (text : jsstring) : list jsstring :=
  let correctedText := correctOCRErrors text in
  let normalized :=
    trim (replaceClass isOtherSpecial [32]
           (collapseSpaces false
             (replaceClass isBracketOrQuote [32]
               (toLowerCase correctedText)))) in
  let rawKeywords :=
    filter (fun keyword => negb (isCommonWord keyword))
      (filter (fun keyword => len keyword >? 1)
        (map trim (split isDelimiter normalized))) in
  let koreanWords := hangulRuns [] text in
  let numberedAdditives := flat_map numberedParts (rawKeywords ++ koreanWords) in
  let spacelessWords :=
    map (replaceClass isSpace [])
        (filter (fun word => includes word [32]) rawKeywords) in
  let allKeywords :=
    rawKeywords
    ++ filter (fun word => (len word >? 1) && negb (isCommonWord word))
              koreanWords
    ++ numberedAdditives
    ++ spacelessWords in
  slice0 15
    (jsSort (fun a b => inject_Z (len b - len a))
      (filter (fun keyword => len keyword >? 1)
        (newSet streq allKeywords))).

End WithCaseMapping.

End Extractor.
Import Extractor.

(* ================================================================== *)
(** * Catalog cache and candidate aggregator *)
(* ================================================================== *)

Module Aggregator.

(** A value handed to the search as [text]: a string, or something that
    has no string methods. *)
Inductive jsvalue :=
| JString (s : jsstring)
| JNull
| JUndefined
| JNumber (n : Z).

Inductive exn := TypeError.

Inductive outcome (A : Type) :=
| Return (a : A)
| Throw (e : exn).
Arguments Return {A} a.
Arguments Throw {A} e.

Definition bind {A B} (m : outcome A) (k : A -> outcome B) : outcome B :=
  match m with
  | Return a => k a
  | Throw e => Throw e
  end.

Notation "x <- m ;; k" := (bind m (fun x => k))
  (at level 61, m at next level, right associativity).

(** How a promise settles. *)
Inductive settled (A : Type) :=
| Fulfilled (a : A)
| Rejected (e : exn).
Arguments Fulfilled {A} a.
Arguments Rejected {A} e.

(** What [getDb().collection('additives').get()] comes to: a snapshot of
    documents, or a failure (thrown or rejected). *)
Inductive storeReply :=
| Snapshot (docs : list additive)
| StoreFails.

(** The two module variables, and a count of the fetches issued so far
    (the count is not in the source; it makes a fetch observable). *)
Record cacheState := {
  additivesCache : option (list additive);
  cacheLoadPromise : bool;
  fetches : nat
}.

Definition emptyCache : cacheState :=
  {| additivesCache := None; cacheLoadPromise := false; fetches := 0 |}.

(** What a caller of [getCachedAdditives] gets before anything is awaited:
    the cached array, or the promise of the load in flight. *)
Inductive handle :=
| Cached (catalog : list additive)
| InFlight.

Section WithCatalog.
Context {CM : CaseMapping}.

(** The bundled snapshot, [additiveData] of scripts/seedData.ts. *)
Variable additiveData : list additive.

(** The synchronous part of [getCachedAdditives]. *)
Definition enterGetCachedAdditives (st : cacheState) : handle * cacheState :=
  match additivesCache st with
  | Some catalog => (Cached catalog, st)
  | None =>
    if cacheLoadPromise st then (InFlight, st)
    else (InFlight, {| additivesCache := None;
                       cacheLoadPromise := true;
                       fetches := S (fetches st) |})
  end.

(** The rest of the loading function, once the store has answered. *)
Definition settleLoad (reply : storeReply) (st : cacheState)
  : list additive * cacheState :=
  let loaded :=
    match reply with
    | Snapshot docs =>
      match docs with
      | _ :: _ => docs
      | [] => additiveData
      end
    | StoreFails => additiveData
    end in
  (loaded, {| additivesCache := Some loaded;
              cacheLoadPromise := false;
              fetches := fetches st |}).

(** [await getCachedAdditives()], with [reply] the answer of the store to
    the fetch, if one is in flight. *)
Definition getCachedAdditives (reply : storeReply) (st : cacheState)
  : list additive * cacheState :=
  match enterGetCachedAdditives st with
  | (Cached catalog, st') => (catalog, st')
  | (InFlight, st') => settleLoad reply st'
  end.

(** A string method called on [text]. *)
Definition asString (text : jsvalue) : outcome jsstring :=
  match text with
  | JString s => Return s
  | _ => Throw TypeError
  end.

(** The loop over the first six keywords, with its early exit. *)
Fixpoint collectMatches (keywords : list jsstring)
         (allAdditives : list additive) (foundAdditives : list matchResult)
  : list matchResult :=
  match keywords with
  | [] => foundAdditives
  | keyword :: rest =>
    let found := foundAdditives ++ findAdditiveMatches keyword allAdditives in
    if 10 <=? size found then found
    else collectMatches rest allAdditives found
  end.

(** [foundAdditives] when the loop is left. *)
Definition foundFor (s : jsstring) (allAdditives : list additive)
  : list matchResult :=
  collectMatches (slice0 6 (slice0 8 (normalizeAndExtractKeywords s)))
                 allAdditives [].

(** The [try] block. *)
Definition searchBody (text : jsvalue) (allAdditives : list additive)
  : outcome (list matchResult) :=
  s <- asString text ;;
  Return (slice0 8 (removeDuplicatesAndSort (foundFor s allAdditives))).

Definition searchAdditivesWithFuzzyMatching
           (text : jsvalue) (reply : storeReply) (st : cacheState)
  : settled (list matchResult) * cacheState :=
  let '(allAdditives, st') := getCachedAdditives reply st in
  match searchBody text allAdditives with
  | Return uniqueAdditives => (Fulfilled uniqueAdditives, st')
  | Throw _ => (Fulfilled [], st')
  end.

End WithCatalog.

End Aggregator.
Import Aggregator.

(* ================================================================== *)
(** * Invariants of the loops *)
(* ================================================================== *)

(** The state of [uniqueMap] once the matches [done] have been read:
    the keys are distinct, every match read has its id among them, and
    the value under a key is a match read with that id and with the
    greatest score among those. *)
Definition uniqueInv (done : list matchResult) (m : jsmap matchResult)
  : Prop :=
  NoDup (map fst m)
  /\ (forall x, In x done -> In (resultId x) (map fst m))
  /\ (forall k v, In (k, v) m ->
        resultId v = k /\ In v done
        /\ forall x, In x done -> resultId x = k ->
                     (resultScore x <= resultScore v)%Q).

Section LoopInvariants.
Context {CM : CaseMapping}.

(** Where a [partial] or [fuzzy] best match comes from: a search term the
    first two strategies passed over, and the score the third or the
    fourth strategy gave it. *)
Definition fromPartial (keyword : jsstring) (terms : list jsstring)
           (m : matchInfo) : Prop :=
  exists searchTerm,
    In searchTerm terms
    /\ isExactMatch keyword searchTerm = false
    /\ isNormalizedExact keyword searchTerm = false
    /\ isPartialMatch keyword searchTerm = true
    /\ matchScore m = partialScore keyword searchTerm.

Definition fromFuzzy (keyword : jsstring) (terms : list jsstring)
           (m : matchInfo) : Prop :=
  exists searchTerm,
    In searchTerm terms
    /\ isExactMatch keyword searchTerm = false
    /\ isNormalizedExact keyword searchTerm = false
    /\ isPartialMatch keyword searchTerm = false
    /\ Qle_bool (fuzzyThreshold keyword)
                (calculateStringSimilarity keyword searchTerm) = true
    /\ matchScore m
       = (calculateStringSimilarity keyword searchTerm * (7 # 10))%Q.

Definition justified (keyword : jsstring) (terms : list jsstring)
           (bestMatch : option matchInfo) : Prop :=
  match bestMatch with
  | None => True
  | Some m =>
    (matchType m = partial -> fromPartial keyword terms m)
    /\ (matchType m = fuzzy -> fromFuzzy keyword terms m)
  end.

End LoopInvariants.

(** What the state of the loop over the search terms keeps: the best
    score is not negative, the best match names the keyword, and its
    score is the one its strategy gives; but for an exact match, that
    score is also the best score. *)
Definition wellScored (keyword : jsstring) (bestMatch : option matchInfo)
           (bestScore : Q) : Prop :=
  (0 <= bestScore)%Q
  /\ match bestMatch with
     | None => True
     | Some m =>
       matchedTerm m = keyword
       /\ match matchType m with
          | exact => matchScore m = 1%Q
          | normalized_exact =>
            matchScore m = (95 # 100)%Q /\ matchScore m = bestScore
          | partial =>
            (matchScore m <= 85 # 100)%Q /\ matchScore m = bestScore
          | fuzzy =>
            (matchScore m <= 7 # 10)%Q /\ matchScore m = bestScore
          end
     end.

(** The parts of [normalizeAndExtractKeywords], named as its local
    constants are. *)
Section ExtractorParts.
Context {CM : CaseMapping}.

Definition normalizedOfInput (text : jsstring) : jsstring :=
  trim (replaceClass isOtherSpecial [32]
         (collapseSpaces false
           (replaceClass isBracketOrQuote [32]
             (toLowerCase (correctOCRErrors text))))).

Definition rawKeywordsOf (text : jsstring) : list jsstring :=
  filter (fun keyword => negb (isCommonWord keyword))
    (filter (fun keyword => len keyword >? 1)
      (map trim (split isDelimiter (normalizedOfInput text)))).

Definition koreanWordsOf (text : jsstring) : list jsstring :=
  hangulRuns [] text.

Definition numberedAdditivesOf (text : jsstring) : list jsstring :=
  flat_map numberedParts (rawKeywordsOf text ++ koreanWordsOf text).

Definition spacelessWordsOf (text : jsstring) : list jsstring :=
  map (replaceClass isSpace [])
      (filter (fun word => includes word [32]) (rawKeywordsOf text)).

Definition allKeywordsOf (text : jsstring) : list jsstring :=
  rawKeywordsOf text
  ++ filter (fun word => (len word >? 1) && negb (isCommonWord word))
            (koreanWordsOf text)
  ++ numberedAdditivesOf text
  ++ spacelessWordsOf text.

End ExtractorParts.

(** The comparator of the keyword sort. *)
Definition byLengthDescending (a b : jsstring) : Q :=
  inject_Z (len b - len a).

(** A character a keyword may hold. *)
Definition isKeywordChar (c : Z) : bool := isWord c || isHangul c.

(** What happens to the cache on the event loop: a call of
    [getCachedAdditives] runs its synchronous part, or the load in flight
    gets the answer of the store and runs to its end.  Without a load in
    flight there is nothing to settle. *)
Inductive cacheEvent :=
| CallEnters
| LoadSettles (reply : storeReply).

Definition cacheStep (additiveData : list additive) (st : cacheState)
           (e : cacheEvent) : cacheState :=
  match e with
  | CallEnters => snd (enterGetCachedAdditives st)
  | LoadSettles reply =>
    if cacheLoadPromise st then snd (settleLoad additiveData reply st)
    else st
  end.

Definition runCache (additiveData : list additive)
           (events : list cacheEvent) (st : cacheState) : cacheState :=
  fold_left (cacheStep additiveData) events st.

(** A Basic Latin character that is no letter, digit or underscore. *)
Definition plain (c : Z) : bool := inRange 0 127 c && negb (isWord c).

(* ================================================================== *)
(** * Callers: the text search endpoint and the image pipeline *)
(* ================================================================== *)

Module Controllers.

(** ** controllers/imageController.ts *)

(** The class the cleaning keeps: word characters, white space, Hangul
    syllables, the jamo U+3131 to U+314E and U+314F to U+3163, and
    comma, semicolon, colon, round brackets and hyphen. *)
Definition isOcrNoise (c : Z) : bool :=
  negb (isWord c || isSpace c || isHangul c
        || inRange 0x3131 0x314E c || inRange 0x314F 0x3163 c
        || memC c [44; 59; 58; 40; 41; 45]).

(** A character the cleaning keeps that is no white space other than the
    plain space. *)
Definition cleanChar (c : Z) : bool :=
  negb (isOcrNoise c) && (negb (isSpace c) || (c =? 32)).

(** [s.replace(/[class]+/g, ' ')] for a class of characters. *)
Fixpoint collapseRuns (p : Z -> bool) (inRun : bool) (s : jsstring)
  : jsstring :=
  match s with
  | [] => []
  | c :: r =>
    if p c then
      if inRun then collapseRuns p true r else 32 :: collapseRuns p true r
    else c :: collapseRuns p false r
  end.

(** [cleanedText] of [processImageWithVisionAPI]. *)
Definition cleanOcrText (extractedText : jsstring) : jsstring :=
  trim (replaceClass isOcrNoise [32]
         (collapseRuns isSpace false
           (collapseRuns (Z.eqb 10) false extractedText))).

Definition foodKeywords : list jsstring :=
  [ js "첨가물"; js "성분"; js "원료"; js "재료"; js "산"; js "염"; js "당";
    js "료"; js "acid"; js "sodium"; js "sugar"; js "extract"; js "oil";
    js "powder"; js "나트륨"; js "칼슘"; js "칼륨"; js "인산"; js "구연산";
    js "아스코르빈산" ].

Definition fallbacks : list jsstring :=
  [ js "안식향산나트륨, 글루탐산나트륨, 구연산, 아스파탐, 카라기난";
    js "적색 40호, 황색 5호, 수크랄로스, 레시틴, 과당포도당액";
    js "BHA, 아질산나트륨, 소르빈산, 토코페롤, 인산" ].

(** The value of [Math.floor(Math.random() * fallbacks.length)]. *)
Inductive fallbackDraw := Draw0 | Draw1 | Draw2.

Definition getFallbackIngredients (draw : fallbackDraw) : jsstring :=
  match draw with
  | Draw0 => nth 0 fallbacks []
  | Draw1 => nth 1 fallbacks []
  | Draw2 => nth 2 fallbacks []
  end.

(** What the text detection comes to: an annotation, whose text may be
    missing, or a failure (of the authentication check or of the call). *)
Inductive ocrOutcome :=
| OcrAnnotation (text : option jsstring)
| OcrFails.

(** How a request is answered. *)
Inductive imageResponse :=
| ImageRequired
| Completed (extractedText : jsstring) (additives : list matchResult)
| ProcessingFailed.

Inductive textResponse :=
| TextRequired
| Found (additives : list matchResult)
| InternalError.

(** [!text] is false for these. *)
Definition truthy (v : jsvalue) : bool :=
  match v with
  | JString s => negb (len s =? 0)
  | JNull => false
  | JUndefined => false
  | JNumber n => negb (n =? 0)
  end.

Section WithCatalog.
Context {CM : CaseMapping}.
Variable additiveData : list additive.

Definition isValidIngredientText (text : jsstring) : bool :=
  let lowerText := toLowerCase text in
  existsb (fun keyword => includes lowerText (toLowerCase keyword))
          foodKeywords
  || (len text >? 10).

Definition processImageWithVisionAPI (ocr : ocrOutcome) (draw : fallbackDraw)
  : jsstring :=
  match ocr with
  | OcrFails => getFallbackIngredients draw
  | OcrAnnotation text =>
    let extractedText := match text with Some t => t | None => [] end in
    let cleanedText := cleanOcrText extractedText in
    if len cleanedText <? 3 then getFallbackIngredients draw
    else if isValidIngredientText cleanedText then cleanedText
    else getFallbackIngredients draw
  end.

(** [imageController.processImage]; [hasFile] tells whether the request
    carries an image file. *)
Definition processImage (hasFile : bool) (ocr : ocrOutcome)
           (draw : fallbackDraw) (reply : storeReply) (st : cacheState)
  : imageResponse * cacheState :=
  if negb hasFile then (ImageRequired, st)
  else
    let extractedText := processImageWithVisionAPI ocr draw in
    match searchAdditivesWithFuzzyMatching additiveData
            (JString extractedText) reply st with
    | (Fulfilled additives, st') => (Completed extractedText additives, st')
    | (Rejected _, st') => (ProcessingFailed, st')
    end.

(** ** The text search endpoint, [searchController.searchByText]
    (src/unnamed/part_016); [body] is [req.body], absent or an object
    whose [text] property is the value given. *)
Definition searchByText (body : option jsvalue) (reply : storeReply)
           (st : cacheState) : textResponse * cacheState :=
  match body with
  | None => (InternalError, st)
  | Some text =>
    if negb (truthy text) then (TextRequired, st)
    else
      match searchAdditivesWithFuzzyMatching additiveData text reply st with
      | (Fulfilled foundAdditives, st') => (Found foundAdditives, st')
      | (Rejected _, st') => (InternalError, st')
      end
  end.

End WithCatalog.

End Controllers.
Import Controllers.

(* ================================================================== *)
(** * The Basic Latin case mapping *)
(* ================================================================== *)

(** [asciiLower] has the two properties of [CaseMapping]; the searches on
    sample inputs below run with it. *)
#[export] Instance asciiCase : CaseMapping.
Proof.
  refine {| toLowerCase := asciiLower |}.
  - unfold asciiLower; intros s c Hin.
    apply in_map_iff in Hin as (x & <- & _).
    unfold lowerUnit, inRange.
    destruct ((65 <=? x) && (x <=? 90)) eqn:E; [|exact E].
    apply andb_true_iff in E as [E1 E2].
    apply Z.leb_le in E1; apply Z.leb_le in E2.
    apply andb_false_iff; right. apply Z.leb_gt. lia.
  - induction s as [|c s IH]; simpl; intros H; [reflexivity|].
    apply andb_true_iff in H as [Hc Hs]. rewrite (IH Hs). f_equal.
    revert Hc. unfold uncased, lowerUnit, isHangul, inRange.
    destruct (65 <=? c) eqn:E1; destruct (c <=? 90) eqn:E2; simpl;
      try reflexivity.
    rewrite andb_false_r; simpl. intros H.
    apply andb_true_iff in H as [H1 H2].
    apply Z.leb_le in E2; apply Z.leb_le in H1. lia.
Defined.

(* ================================================================== *)
(** * Sample catalogs *)
(* ================================================================== *)

Module Examples.

Definition mkAdditive (i n : string) (h : hazardLevel) (al : list string)
  : additive :=
  {| id := js i; name := js n; hazard_level := h; aliases := map js al |}.

(** The entry of the exact-hit scenario. *)
Definition citricAcid : additive := mkAdditive "citric-acid" "구연산" Low [].

(** The same entry as scripts/seedData.ts has it, the name repeated among
    the aliases. *)
Definition citricAcidSeed : additive :=
  mkAdditive "citric-acid" "구연산" Low ["구연산"%string].

Definition sodiumBenzoate : additive :=
  mkAdditive "sodium-benzoate" "안식향산나트륨" Medium ["벤조산나트륨"%string].

Definition potassiumCitrate : additive :=
  mkAdditive "potassium-citrate" "구연산칼륨" Low [].

Definition anhydrousCitricAcid : additive :=
  mkAdditive "anhydrous-citric-acid" "무수구연산" High [].

(** A name written with a hyphen and a space. *)
Definition spacedName : additive := mkAdditive "spaced" "a-b c" Low [].

(** A filler for [hd] and [nth]. *)
Definition noMatch : matchResult :=
  {| entry := mkAdditive EmptyString EmptyString Unlisted [];
     info := {| matchType := exact; matchScore := 0; matchedTerm := [] |} |}.

Definition resultsOf (p : settled (list matchResult)) : list matchResult :=
  match p with
  | Fulfilled results => results
  | Rejected _ => []
  end.

(** Two entries that contain the keyword and tie on the score. *)
Definition citrateSearch : settled (list matchResult) :=
  fst (searchAdditivesWithFuzzyMatching []
         (JString (js "구연산"))
         (Snapshot [potassiumCitrate; anhydrousCitricAcid]) emptyCache).

Definition citrateResults : list matchResult :=
  Eval vm_compute in resultsOf citrateSearch.

(** Two keywords that hit the same entry. *)
Definition twoKeywordSearch : settled (list matchResult) :=
  fst (searchAdditivesWithFuzzyMatching []
         (JString (js "무수구연산, 구연산나트륨"))
         (Snapshot [citricAcid]) emptyCache).

Definition twoKeywordResults : list matchResult :=
  Eval vm_compute in resultsOf twoKeywordSearch.

Definition spacedMatches : list matchResult :=
  Eval vm_compute in findAdditiveMatches (js "abcd") [spacedName].

(** An entry whose name contains its alias. *)
Definition sodiumCitrate : additive :=
  mkAdditive "sodium-citrate" "구연산나트륨" Low ["구연산"%string].

Definition garbledMatches : list matchResult :=
  Eval vm_compute in findAdditiveMatches (js "안식향산냐트륨") [sodiumBenzoate].

End Examples.
Import Examples.

(* ================================================================== *)
(** * Properties *)
(* ================================================================== *)

(** ** OCR correction *)

Section OcrCorrection.

Lemma replaceClass_app p r a b :
  replaceClass p r (a ++ b) = replaceClass p r a ++ replaceClass p r b.
Proof. unfold replaceClass. apply flat_map_app. Qed.

Lemma applyRows_app rows : forall a b,
  applyRows rows (a ++ b) = applyRows rows a ++ applyRows rows b.
Proof.
  induction rows as [|e rows IH]; intros a b; simpl; [reflexivity|].
  unfold replaceChar. rewrite replaceClass_app. apply IH.
Qed.

Lemma applyRows_nil rows : applyRows rows [] = [].
Proof. induction rows as [|e rows IH]; simpl; auto. Qed.

Lemma applyRows_flat_map rows s :
  applyRows rows s = flat_map (fun c => applyRows rows [c]) s.
Proof.
  induction s as [|c s IH]; simpl.
  - apply applyRows_nil.
  - change (c :: s) with ([c] ++ s). rewrite applyRows_app. now rewrite IH.
Qed.

Lemma applyRows_untouched rows c :
  existsb (Z.eqb c) (map fst rows) = false -> applyRows rows [c] = [c].
Proof.
  induction rows as [|[k r] rows IH]; simpl; intros H; [reflexivity|].
  apply orb_false_iff in H as [Hk Hrest].
  unfold replaceChar, replaceClass; simpl.
  rewrite Z.eqb_sym, Hk. simpl. apply IH, Hrest.
Qed.

Lemma correctionKeys_eq :
  correctionKeys =
  [48; 49; 53; 0x3147; 0x3141; 0x3134; 0x3139; 0x3145; 0x314C; 0x314D;
   0x314E; 108; 111; 115; 0xB7; 0x2022; 0xFF0D; 0x2014; 0xA0; 0x2009;
   0x200B].
Proof. reflexivity. Qed.

Ltac split_orb H :=
  repeat match type of H with
         | (_ || _) = false =>
           let H1 := fresh "K" in
           apply orb_false_iff in H as [H1 H]
         end.

Lemma ocrImage_untouched c :
  existsb (Z.eqb c) correctionKeys = false -> ocrImage c = [c].
Proof.
  rewrite correctionKeys_eq. cbn [existsb]. intros H. split_orb H.
  unfold ocrImage, memC, middleDot, bullet. cbn [existsb].
  repeat match goal with K : (c =? _) = false |- _ => rewrite K; clear K end.
  reflexivity.
Qed.

Lemma correctOCRErrors_single c : correctOCRErrors [c] = ocrImage c.
Proof.
  destruct (existsb (Z.eqb c) correctionKeys) eqn:E.
  - rewrite correctionKeys_eq in E. apply existsb_exists in E as (k & Hk & Ek).
    apply Z.eqb_eq in Ek; subst k.
    repeat (destruct Hk as [<- | Hk]; [reflexivity|]). destruct Hk.
  - rewrite (ocrImage_untouched c E).
    apply (applyRows_untouched (objectEntries corrections) c E).
Qed.

Lemma correctOCRErrors_flat_map text :
  correctOCRErrors text = flat_map ocrImage text.
Proof.
  unfold correctOCRErrors.
  change (applyRows (objectEntries corrections) text = flat_map ocrImage text).
  rewrite applyRows_flat_map. apply flat_map_ext.
  intros c. apply correctOCRErrors_single.
Qed.

Lemma ocrImage_no_lookalike x c :
  In c (ocrImage x) -> c <> 108 /\ c <> 111 /\ c <> 115.
Proof.
  destruct (existsb (Z.eqb x) correctionKeys) eqn:E.
  - rewrite correctionKeys_eq in E. apply existsb_exists in E as (k & Hk & Ek).
    apply Z.eqb_eq in Ek; subst k.
    repeat (destruct Hk as [<- | Hk];
            [ cbv; intros HIn;
              repeat (destruct HIn as [<- | HIn];
                      [repeat split; intros; discriminate|]);
              destruct HIn
            | ]).
    destruct Hk.
  - rewrite (ocrImage_untouched x E). intros [<- | []].
    rewrite correctionKeys_eq in E. cbn [existsb] in E. split_orb E.
    repeat split; intros ->; discriminate.
Qed.

End OcrCorrection.

(** C10. The rows of the substitution table are applied one after the
    other, each to the whole text, so a lookalike pair collapses to one
    character: [correctOCRErrors] maps the text character by character,
    '1' and 'l' to '1', '0' and 'o' to '0', '5' and 's' to '5', the jamo
    U+3147 to '0' and U+3145 to '5'; and the result holds none of
    'l', 'o', 's'. *)
Theorem correctOCRErrors_collapses_lookalikes :
  forall text : jsstring,
    correctOCRErrors text = flat_map ocrImage text
    /\ ocrImage 49 = js "1" /\ ocrImage 108 = js "1"
    /\ ocrImage 48 = js "0" /\ ocrImage 111 = js "0"
    /\ ocrImage 53 = js "5" /\ ocrImage 115 = js "5"
    /\ ocrImage 0x3147 = js "0" /\ ocrImage 0x3145 = js "5"
    /\ (forall c, In c (correctOCRErrors text) ->
                  c <> 108 /\ c <> 111 /\ c <> 115).
Proof.
  intros text. split; [apply correctOCRErrors_flat_map|].
  repeat (split; [reflexivity|]).
  intros c Hin. rewrite correctOCRErrors_flat_map in Hin.
  apply in_flat_map in Hin as (x & _ & Hx).
  exact (ocrImage_no_lookalike x c Hx).
Qed.

(** ** Normalization *)

Section Normalization.
Context {CM : CaseMapping}.

Lemma replaceClass_nil p s :
  replaceClass p [] s = filter (fun c => negb (p c)) s.
Proof.
  unfold replaceClass. induction s as [|c s IH]; simpl; [reflexivity|].
  destruct (p c); simpl; now rewrite IH.
Qed.

Lemma filter_all {A} (f : A -> bool) l :
  (forall x, In x l -> f x = true) -> filter f l = l.
Proof.
  induction l as [|x l IH]; simpl; intros H; [reflexivity|].
  rewrite (H x (or_introl eq_refl)). f_equal. apply IH. auto.
Qed.

(** What survives the three [replace] calls of [normalizeText]. *)
Lemma normalizeText_In x c :
  In c (normalizeText x) ->
  In c (toLowerCase x)
  /\ isBracketOrQuote c = false
  /\ isSeparator c = false
  /\ isNotWordOrHangul c = false.
Proof.
  unfold normalizeText. rewrite !replaceClass_nil. intros H.
  apply filter_In in H as [H H3]. apply filter_In in H as [H H2].
  apply filter_In in H as [H H1].
  rewrite negb_true_iff in H1, H2, H3. auto.
Qed.

Lemma word_not_capital_uncased c :
  isNotWordOrHangul c = false -> inRange 65 90 c = false -> uncased c = true.
Proof.
  unfold isNotWordOrHangul, uncased, isWord, isDigit. intros H Hcap.
  rewrite negb_false_iff in H. rewrite Hcap in *. simpl in *.
  destruct (isHangul c); [apply orb_true_r|]. rewrite orb_false_r in *.
  rewrite andb_true_r. unfold inRange in *.
  rewrite !orb_true_iff, !andb_true_iff, !Z.leb_le, Z.eqb_eq in H.
  apply andb_true_iff; rewrite !Z.leb_le. lia.
Qed.

Lemma normalizeText_uncased x : forallb uncased (normalizeText x) = true.
Proof.
  apply forallb_forall. intros c Hc.
  apply normalizeText_In in Hc as (Hlow & _ & _ & Hw).
  apply word_not_capital_uncased; [exact Hw|].
  exact (toLowerCase_no_capital x c Hlow).
Qed.

End Normalization.

(** C8. The normalizer is idempotent:
    [normalizeText (normalizeText x) = normalizeText x] for every string,
    whatever case mapping [toLowerCase] is among those that leave uncased
    text alone and produce no Basic Latin capital. *)
Theorem normalizeText_idempotent {CM : CaseMapping} :
  forall x : jsstring, normalizeText (normalizeText x) = normalizeText x.
Proof.
  intros x. set (y := normalizeText x).
  assert (Hy : forall c, In c y ->
             isBracketOrQuote c = false /\ isSeparator c = false
             /\ isNotWordOrHangul c = false).
  { intros c Hc. apply normalizeText_In in Hc. tauto. }
  unfold normalizeText at 1.
  rewrite (toLowerCase_uncased y (normalizeText_uncased x)).
  rewrite !replaceClass_nil.
  rewrite (filter_all (fun c => negb (isBracketOrQuote c)) y).
  2:{ intros c Hc. destruct (Hy c Hc) as (-> & _). reflexivity. }
  rewrite (filter_all (fun c => negb (isSeparator c)) y).
  2:{ intros c Hc. destruct (Hy c Hc) as (_ & -> & _). reflexivity. }
  apply filter_all.
  intros c Hc. destruct (Hy c Hc) as (_ & _ & ->). reflexivity.
Qed.

(** ** The public boundary: no exception, at most eight results *)

Section Boundary.
Context {CM : CaseMapping}.
Variable additiveData : list additive.

Lemma search_unfold text reply st :
  searchAdditivesWithFuzzyMatching additiveData text reply st =
  (match searchBody text (fst (getCachedAdditives additiveData reply st)) with
   | Return uniqueAdditives => Fulfilled uniqueAdditives
   | Throw _ => Fulfilled []
   end,
   snd (getCachedAdditives additiveData reply st)).
Proof.
  unfold searchAdditivesWithFuzzyMatching.
  destruct (getCachedAdditives additiveData reply st) as [all st']; simpl.
  destruct (searchBody text all); reflexivity.
Qed.

Lemma searchBody_string s all :
  searchBody (JString s) all =
  Return (slice0 8 (removeDuplicatesAndSort (foundFor s all))).
Proof. reflexivity. Qed.

Lemma searchBody_not_string text all :
  (forall s, text <> JString s) -> searchBody text all = Throw TypeError.
Proof. destruct text; intros H; try reflexivity. now destruct (H s). Qed.

Lemma Fulfilled_inj {A} (x y : A) : Fulfilled x = Fulfilled y -> x = y.
Proof. congruence. Qed.

(** The promise of the search, for a string argument. *)
Lemma search_string s reply st :
  fst (searchAdditivesWithFuzzyMatching additiveData (JString s) reply st) =
  Fulfilled
    (slice0 8 (removeDuplicatesAndSort
                 (foundFor s (fst (getCachedAdditives additiveData reply st))))).
Proof. rewrite search_unfold. reflexivity. Qed.

End Boundary.

(** C4. Whatever is passed as [text] (a string of any length and content,
    the empty string, null, undefined, a number), whatever the store
    answers and whatever the cache holds, the promise of
    [searchAdditivesWithFuzzyMatching] is fulfilled with an array and never
    rejected; when the [try] block throws, the array is empty, and it does
    throw on every argument that is not a string. *)
Theorem search_never_rejects {CM : CaseMapping} :
  forall (additiveData : list additive) (text : jsvalue)
         (reply : storeReply) (st : cacheState),
    (exists results,
        fst (searchAdditivesWithFuzzyMatching additiveData text reply st)
        = Fulfilled results)
    /\ (forall e,
          searchBody text (fst (getCachedAdditives additiveData reply st))
          = Throw e ->
          fst (searchAdditivesWithFuzzyMatching additiveData text reply st)
          = Fulfilled [])
    /\ ((forall s, text <> JString s) ->
        fst (searchAdditivesWithFuzzyMatching additiveData text reply st)
        = Fulfilled []).
Proof.
  intros additiveData text reply st. rewrite search_unfold; simpl.
  split; [|split].
  - destruct (searchBody text _) as [r|e]; eauto.
  - intros e ->. reflexivity.
  - intros H. now rewrite (searchBody_not_string text _ H).
Qed.

(** C5. The array the search resolves to has at most eight elements, for
    every argument, store answer and cache state. *)
Theorem search_at_most_eight_results {CM : CaseMapping} :
  forall (additiveData : list additive) (text : jsvalue)
         (reply : storeReply) (st : cacheState),
  exists results,
    fst (searchAdditivesWithFuzzyMatching additiveData text reply st)
    = Fulfilled results
    /\ (List.length results <= 8)%nat.
Proof.
  intros additiveData text reply st. rewrite search_unfold; cbn [fst].
  destruct text as [s| | |n];
    try (exists []; split; [reflexivity | simpl; lia]).
  rewrite searchBody_string.
  eexists; split; [reflexivity|]. unfold slice0. apply firstn_le_length.
Qed.

(** ** Sorting with a comparator *)

Lemma Qltb_true a b : Qltb a b = true <-> (a < b)%Q.
Proof.
  unfold Qltb. rewrite negb_true_iff. split.
  - intros H. apply Qnot_le_lt. intros Hle.
    apply Qle_bool_iff in Hle. congruence.
  - intros H. destruct (Qle_bool b a) eqn:E; [|reflexivity].
    apply Qle_bool_iff in E. exfalso. exact (Qlt_not_le _ _ H E).
Qed.

Lemma Qltb_false a b : Qltb a b = false <-> (b <= a)%Q.
Proof.
  unfold Qltb. rewrite negb_false_iff. apply Qle_bool_iff.
Qed.

Section ComparatorSort.
Context {A : Type}.
Variable cmp : A -> A -> Q.

Hypothesis cmp_total :
  forall x y, Qltb 0 (cmp x y) = true -> inOrder cmp y x.

Lemma insertSorted_perm x l : Permutation (insertSorted cmp x l) (x :: l).
Proof.
  induction l as [|y l IH]; simpl; [reflexivity|].
  destruct (Qltb 0 (cmp x y)); [|reflexivity].
  rewrite IH. apply perm_swap.
Qed.

Lemma jsSort_perm l : Permutation (jsSort cmp l) l.
Proof.
  induction l as [|x l IH]; simpl; [reflexivity|].
  rewrite insertSorted_perm. now constructor.
Qed.

Lemma insertSorted_hd x y l :
  inOrder cmp y x -> HdRel (inOrder cmp) y l -> HdRel (inOrder cmp) y (insertSorted cmp x l).
Proof.
  intros Hyx Hl. destruct l as [|z l]; simpl; [now constructor|].
  destruct (Qltb 0 (cmp x z)); [|now constructor].
  inversion Hl; subst. now constructor.
Qed.

Lemma insertSorted_sorted x l :
  Sorted (inOrder cmp) l -> Sorted (inOrder cmp) (insertSorted cmp x l).
Proof.
  induction l as [|y l IH]; simpl; intros Hs.
  - repeat constructor.
  - inversion Hs as [|? ? Hl Hhd]; subst.
    destruct (Qltb 0 (cmp x y)) eqn:E.
    + constructor; [apply IH, Hl|].
      apply insertSorted_hd; [apply cmp_total, E | exact Hhd].
    + constructor; [exact Hs|]. constructor. exact E.
Qed.

Lemma jsSort_sorted l : Sorted (inOrder cmp) (jsSort cmp l).
Proof.
  induction l as [|x l IH]; simpl; [constructor|].
  apply insertSorted_sorted, IH.
Qed.

End ComparatorSort.

Lemma Sorted_firstn {A} (R : A -> A -> Prop) n : forall l,
  Sorted R l -> Sorted R (firstn n l).
Proof.
  induction n as [|n IH]; intros l Hs; simpl; [constructor|].
  destruct l as [|x l]; [constructor|].
  inversion Hs as [|? ? Hl Hhd]; subst.
  constructor; [apply IH, Hl|].
  destruct l as [|y l]; destruct n; simpl; try constructor.
  now inversion Hhd.
Qed.


(** ** Ranking of the results *)

Lemma compareResults_inOrder a b :
  inOrder compareResults a b <->
  (resultScore b <= resultScore a)%Q
  /\ ((resultScore a == resultScore b)%Q ->
      hazardOrder (resultHazard a) <= hazardOrder (resultHazard b)).
Proof.
  unfold inOrder, compareResults. rewrite Qltb_false.
  destruct (Qeq_bool (resultScore b) (resultScore a)) eqn:E; simpl.
  - apply Qeq_bool_iff in E. split.
    + intros H. split; [rewrite E; apply Qle_refl|]. intros _.
      change 0%Q with (inject_Z 0) in H. rewrite <- Zle_Qle in H. lia.
    + intros [_ H]. change 0%Q with (inject_Z 0). rewrite <- Zle_Qle.
      specialize (H (Qeq_sym _ _ E)). lia.
  - apply Qeq_bool_neq in E. split.
    + intros H. split.
      * apply Qle_minus_iff in H.
        apply Qle_minus_iff.
        setoid_replace (resultScore a + - resultScore b)%Q
          with (0 + - (resultScore b - resultScore a))%Q by ring.
        exact H.
      * intros Heq. destruct E. now symmetry.
    + intros [H _]. apply Qle_minus_iff.
      setoid_replace (0 + - (resultScore b - resultScore a))%Q
        with (resultScore a + - resultScore b)%Q by ring.
      apply Qle_minus_iff in H. exact H.
Qed.

Lemma compareResults_total a b :
  Qltb 0 (compareResults a b) = true -> inOrder compareResults b a.
Proof.
  intros H. apply compareResults_inOrder.
  assert (Hn : ~ inOrder compareResults a b).
  { unfold inOrder. rewrite H. discriminate. }
  rewrite compareResults_inOrder in Hn.
  destruct (Qlt_le_dec (resultScore a) (resultScore b)) as [Hlt | Hle].
  - split; [apply Qlt_le_weak, Hlt|].
    intros Heq. rewrite Heq in Hlt. now apply Qlt_irrefl in Hlt.
  - split.
    + destruct (Qlt_le_dec (resultScore b) (resultScore a)) as [Hlt | Hle'].
      * exfalso. apply Hn. split; [apply Qlt_le_weak, Hlt|].
        intros Heq. rewrite Heq in Hlt. now apply Qlt_irrefl in Hlt.
      * exact Hle'.
    + intros Heq.
      destruct (Z_le_gt_dec (hazardOrder (resultHazard b))
                            (hazardOrder (resultHazard a))) as [Hz | Hz];
        [exact Hz|].
      exfalso. apply Hn. split; [exact Hle|]. intros _. lia.
Qed.

Lemma removeDuplicatesAndSort_sorted found :
  Sorted (inOrder compareResults) (removeDuplicatesAndSort found).
Proof.
  unfold removeDuplicatesAndSort. apply jsSort_sorted.
  exact compareResults_total.
Qed.


(** ** Deduplication by id *)

Lemma streq_eq a : forall b, streq a b = true <-> a = b.
Proof.
  induction a as [|x a IH]; destruct b as [|y b]; simpl;
    try (split; [discriminate | congruence]); [tauto|].
  rewrite andb_true_iff, Z.eqb_eq, IH. split.
  - intros [-> ->]. reflexivity.
  - intros H. injection H as -> ->. auto.
Qed.

Lemma streq_refl a : streq a a = true.
Proof. now apply streq_eq. Qed.

Section MapFacts.
Context {V : Type}.

Lemma mapGet_None (m : jsmap V) k :
  mapGet m k = None -> ~ In k (map fst m).
Proof.
  induction m as [|[k' v'] m IH]; simpl; [tauto|].
  destruct (streq k' k) eqn:E; [discriminate|].
  intros H [Hk | Hin]; [|exact (IH H Hin)].
  subst k'. rewrite streq_refl in E. discriminate.
Qed.

Lemma mapGet_Some (m : jsmap V) k v :
  mapGet m k = Some v -> In (k, v) m.
Proof.
  induction m as [|[k' v'] m IH]; simpl; [discriminate|].
  destruct (streq k' k) eqn:E.
  - apply streq_eq in E. subst k'. intros H. injection H as ->. now left.
  - intros H. right. exact (IH H).
Qed.

Lemma mapSet_keys (m : jsmap V) k v k' :
  In k' (map fst (mapSet m k v)) <-> k' = k \/ In k' (map fst m).
Proof.
  induction m as [|[k0 v0] m IH]; simpl.
  - intuition congruence.
  - destruct (streq k0 k) eqn:E; simpl.
    + apply streq_eq in E. subst k0. intuition congruence.
    + rewrite IH. tauto.
Qed.

Lemma mapSet_NoDup (m : jsmap V) k v :
  NoDup (map fst m) -> NoDup (map fst (mapSet m k v)).
Proof.
  induction m as [|[k0 v0] m IH]; simpl; intros Hnd.
  - repeat constructor. intros [].
  - inversion Hnd as [|? ? Hnotin Hnd']; subst.
    destruct (streq k0 k) eqn:E; simpl.
    + constructor; assumption.
    + constructor; [|apply IH, Hnd'].
      rewrite mapSet_keys. intros [-> | Hin]; [|exact (Hnotin Hin)].
      rewrite streq_refl in E. discriminate.
Qed.

Lemma mapSet_In (m : jsmap V) k v k' v' :
  NoDup (map fst m) ->
  In (k', v') (mapSet m k v) ->
  (k' = k /\ v' = v) \/ (k' <> k /\ In (k', v') m).
Proof.
  induction m as [|[k0 v0] m IH]; simpl; intros Hnd Hin.
  - destruct Hin as [Hin | []]. injection Hin as <- <-. now left.
  - inversion Hnd as [|? ? Hnotin Hnd']; subst.
    destruct (streq k0 k) eqn:E; simpl in Hin.
    + apply streq_eq in E. subst k0.
      destruct Hin as [Hin | Hin]; [injection Hin as <- <-; now left|].
      right. split; [|now right].
      intros ->. apply Hnotin. apply (in_map fst) in Hin. exact Hin.
    + destruct Hin as [Hin | Hin].
      * injection Hin as <- <-. right. split; [|now left].
        intros ->. rewrite streq_refl in E. discriminate.
      * destruct (IH Hnd' Hin) as [H | [H1 H2]]; [now left|].
        right. split; [exact H1 | now right].
Qed.

Lemma NoDup_keys_functional (m : jsmap V) k v v' :
  NoDup (map fst m) -> In (k, v) m -> In (k, v') m -> v = v'.
Proof.
  induction m as [|[k0 v0] m IH]; simpl; intros Hnd H1 H2; [destruct H1|].
  inversion Hnd as [|? ? Hnotin Hnd']; subst.
  destruct H1 as [H1 | H1]; destruct H2 as [H2 | H2].
  - congruence.
  - injection H1 as <- <-. destruct Hnotin.
    apply (in_map fst) in H2. exact H2.
  - injection H2 as <- <-. destruct Hnotin.
    apply (in_map fst) in H1. exact H1.
  - apply IH; assumption.
Qed.

End MapFacts.

Lemma uniqueInv_set done m r :
  uniqueInv done m ->
  (forall x, In x done -> resultId x = resultId r ->
             (resultScore x <= resultScore r)%Q) ->
  uniqueInv (done ++ [r]) (mapSet m (resultId r) r).
Proof.
  intros (Hnd & Hkeys & Hvals) Hbest. split; [|split].
  - apply mapSet_NoDup, Hnd.
  - intros x Hx. apply mapSet_keys.
    apply in_app_iff in Hx as [Hx | [<- | []]].
    + right. apply Hkeys, Hx.
    + now left.
  - intros k v Hin.
    destruct (mapSet_In m _ _ _ _ Hnd Hin) as [[-> ->] | [Hne Hold]].
    + split; [reflexivity|]. split; [apply in_app_iff; right; now left|].
      intros x Hx Hid. apply in_app_iff in Hx as [Hx | [<- | []]].
      * apply Hbest; assumption.
      * apply Qle_refl.
    + destruct (Hvals k v Hold) as (Hid & Hdone & Hmax).
      split; [exact Hid|]. split; [apply in_app_iff; now left|].
      intros x Hx Hxid. apply in_app_iff in Hx as [Hx | [<- | []]].
      * apply Hmax; assumption.
      * congruence.
Qed.

Lemma uniqueInv_keep done m r existing :
  uniqueInv done m ->
  In (resultId r, existing) m ->
  (resultScore r <= resultScore existing)%Q ->
  uniqueInv (done ++ [r]) m.
Proof.
  intros (Hnd & Hkeys & Hvals) Hget Hle. split; [exact Hnd|]. split.
  - intros x Hx. apply in_app_iff in Hx as [Hx | [<- | []]].
    + apply Hkeys, Hx.
    + apply (in_map fst) in Hget. exact Hget.
  - intros k v Hin. destruct (Hvals k v Hin) as (Hvid & Hvdone & Hvmax).
    split; [exact Hvid|]. split; [apply in_app_iff; now left|].
    intros x Hx Hxid. apply in_app_iff in Hx as [Hx | [<- | []]].
    + apply Hvmax; assumption.
    + subst k. rewrite Hxid in Hget.
      now rewrite (NoDup_keys_functional m _ v existing Hnd Hin Hget).
Qed.

Lemma fillUnique_inv l : forall done m,
  uniqueInv done m -> uniqueInv (done ++ l) (fillUnique m l).
Proof.
  induction l as [|r l IH]; intros done m Hinv; simpl.
  - now rewrite app_nil_r.
  - replace (done ++ r :: l) with ((done ++ [r]) ++ l)
      by (rewrite <- app_assoc; reflexivity).
    pose proof Hinv as (Hnd & Hkeys & Hvals).
    destruct (mapGet m (resultId r)) as [existing|] eqn:Hget.
    + apply mapGet_Some in Hget.
      destruct (Hvals _ _ Hget) as (Hid & Hdone & Hmax).
      destruct (Qltb (resultScore existing) (resultScore r)) eqn:Hlt.
      * apply IH, uniqueInv_set; [exact Hinv|].
        intros x Hx Hxid. apply Qle_trans with (resultScore existing).
        -- apply Hmax; assumption.
        -- apply Qlt_le_weak. now apply Qltb_true.
      * apply IH, (uniqueInv_keep done m r existing Hinv Hget).
        now apply Qltb_false.
    + apply mapGet_None in Hget. apply IH, uniqueInv_set; [exact Hinv|].
      intros x Hx Hxid. destruct Hget. rewrite <- Hxid. apply Hkeys, Hx.
Qed.

Lemma uniqueInv_nil : uniqueInv [] [].
Proof.
  split; [constructor|]. split; [intros x []|intros k v []].
Qed.

Lemma In_firstn {A} n : forall (l : list A) x, In x (firstn n l) -> In x l.
Proof.
  induction n as [|n IH]; intros l x; simpl; [intros []|].
  destruct l as [|y l]; [intros []|].
  intros [-> | Hin]; [now left | right; apply IH, Hin].
Qed.

Lemma NoDup_firstn {A} n : forall l : list A, NoDup l -> NoDup (firstn n l).
Proof.
  induction n as [|n IH]; intros l Hnd; simpl; [constructor|].
  destruct l as [|x l]; [constructor|].
  inversion Hnd as [|? ? Hnotin Hnd']; subst.
  constructor; [|apply IH, Hnd'].
  intros Hin. apply Hnotin. eapply In_firstn. exact Hin.
Qed.

Lemma keyed_values (m : jsmap matchResult) :
  (forall k v, In (k, v) m -> resultId v = k) ->
  map resultId (mapValues m) = map fst m.
Proof.
  unfold mapValues. induction m as [|[k v] m IH]; simpl; intros H;
    [reflexivity|].
  rewrite (H k v (or_introl eq_refl)). f_equal. apply IH.
  intros k' v' Hin. apply H. now right.
Qed.

Lemma removeDuplicatesAndSort_spec found :
  NoDup (map resultId (removeDuplicatesAndSort found))
  /\ forall r, In r (removeDuplicatesAndSort found) ->
       In r found
       /\ forall x, In x found -> resultId x = resultId r ->
                    (resultScore x <= resultScore r)%Q.
Proof.
  unfold removeDuplicatesAndSort.
  destruct (fillUnique_inv found [] [] uniqueInv_nil) as (Hnd & _ & Hvals).
  simpl in Hvals.
  set (m := fillUnique [] found) in *.
  pose proof (jsSort_perm compareResults (mapValues m)) as Hperm.
  split.
  - apply (Permutation_NoDup (l := map resultId (mapValues m))).
    + apply Permutation_map. now symmetry.
    + rewrite keyed_values; [exact Hnd|]. intros k v Hin.
      now destruct (Hvals k v Hin).
  - intros r Hr. apply (Permutation_in _ Hperm) in Hr.
    unfold mapValues in Hr. apply in_map_iff in Hr as ([k v] & <- & Hin).
    simpl. destruct (Hvals k v Hin) as (Hid & Hdone & Hmax).
    split; [exact Hdone|]. intros x Hx Hxid. apply Hmax; congruence.
Qed.

(** C7. The array the search resolves to holds no two results with the
    same id, and, for a string argument, every result in it is one of the
    matches the keyword loop produced and no match produced for the same
    id, under any keyword, has a higher score. *)
Theorem search_results_unique_and_best {CM : CaseMapping} :
  forall (additiveData : list additive) (text : jsvalue)
         (reply : storeReply) (st : cacheState)
         (results : list matchResult),
    fst (searchAdditivesWithFuzzyMatching additiveData text reply st)
    = Fulfilled results ->
    NoDup (map resultId results)
    /\ forall s, text = JString s ->
       forall r, In r results ->
         let found :=
           foundFor s (fst (getCachedAdditives additiveData reply st)) in
         In r found
         /\ forall x, In x found -> resultId x = resultId r ->
                      (resultScore x <= resultScore r)%Q.
Proof.
  intros additiveData text reply st results Hres.
  rewrite search_unfold in Hres; cbn [fst] in Hres.
  destruct text as [s| | |n];
    [ rewrite searchBody_string in Hres
    | cbn in Hres; apply Fulfilled_inj in Hres; subst results;
      split; [constructor | intros s Hs r []] .. ].
  apply Fulfilled_inj in Hres. subst results.
  set (all := fst (getCachedAdditives additiveData reply st)).
  destruct (removeDuplicatesAndSort_spec (foundFor s all)) as [Hnd Hbest].
  split.
  - unfold slice0. rewrite <- firstn_map. apply NoDup_firstn, Hnd.
  - intros s' Hs r Hr. injection Hs as <-.
    apply Hbest. eapply In_firstn. exact Hr.
Qed.

(** ** The scoring loop *)

Section ScoringLoop.
Context {CM : CaseMapping}.

Lemma scanTerms_justified keyword all : forall terms bestMatch bestScore,
  incl terms all ->
  justified keyword all bestMatch ->
  justified keyword all (fst (scanTerms keyword terms bestMatch bestScore)).
Proof.
  induction terms as [|t rest IH]; intros bm bs Hincl Hj; simpl; [exact Hj|].
  assert (Ht : In t all) by (apply Hincl; now left).
  assert (Hrest : incl rest all) by (intros x Hx; apply Hincl; now right).
  destruct (isExactMatch keyword t) eqn:E1.
  { simpl. split; discriminate. }
  destruct (isNormalizedExact keyword t) eqn:E2.
  { destruct (Qltb bs (95 # 100)); apply IH; auto.
    simpl. split; discriminate. }
  destruct (isPartialMatch keyword t) eqn:E3.
  { destruct (Qltb bs (partialScore keyword t)); apply IH; auto.
    simpl. split; [|discriminate]. intros _. exists t.
    repeat split; assumption. }
  destruct (Qle_bool (fuzzyThreshold keyword)
                     (calculateStringSimilarity keyword t)
            && Qltb bs (calculateStringSimilarity keyword t * (7 # 10))%Q)
    eqn:E4; apply IH; auto.
  apply andb_true_iff in E4 as [E4 _].
  simpl. split; [discriminate|]. intros _. exists t.
  repeat split; assumption.
Qed.

Lemma findAdditiveMatches_In keyword additives r :
  In r (findAdditiveMatches keyword additives) ->
  In (entry r) additives
  /\ justified keyword (allSearchTerms (entry r)) (Some (info r)).
Proof.
  unfold findAdditiveMatches. intros H.
  apply in_flat_map in H as (a & Ha & Hr). unfold matchAdditive in Hr.
  pose proof (scanTerms_justified keyword (allSearchTerms a)
                (allSearchTerms a) None 0%Q (incl_refl _) I) as Hj.
  destruct (scanTerms keyword (allSearchTerms a) None 0%Q) as [[m|] bs];
    [|destruct Hr].
  destruct (Qltb (2 # 10) bs); [|destruct Hr].
  destruct Hr as [<- | []]. simpl. auto.
Qed.

(** ** Facts about [includes] and the empty string *)




Lemma len_zero s : len s = 0 -> s = [].
Proof. destruct s; [reflexivity|]. unfold len; simpl. lia. Qed.

Lemma toLowerCase_nil : toLowerCase [] = [].
Proof. now apply toLowerCase_uncased. Qed.


(** In the third strategy the divisor is positive: the two raw strings are
    not both empty, or the first strategy would have taken the pair. *)
Lemma longerLength_pos keyword searchTerm :
  isExactMatch keyword searchTerm = false ->
  0 < longerLength keyword searchTerm.
Proof.
  unfold isExactMatch, longerLength. intros H.
  destruct (Z_lt_le_dec 0 (Z.max (len searchTerm) (len keyword)))
    as [Hpos | Hle]; [lia|].
  assert (Hs : len searchTerm = 0) by (unfold len in *; lia).
  assert (Hk : len keyword = 0) by (unfold len in *; lia).
  apply len_zero in Hs, Hk. subst.
  rewrite toLowerCase_nil in H. discriminate.
Qed.


Lemma substringBonus_either n1 n2 :
  substringBonus n1 n2
  = if includes n1 n2 || includes n2 n1 then (2 # 10)%Q else 0%Q.
Proof.
  unfold substringBonus.
  destruct (includes n1 n2), (includes n2 n1); reflexivity.
Qed.

End ScoringLoop.

(** ** Exact hits *)

(** The first strategy leaves [bestScore] as it is, so an exact hit on the
    name, the first search term, comes to the floor test with a score of
    0 and is not pushed. *)
Lemma exact_hit_on_name_is_dropped {CM : CaseMapping} keyword a :
  isExactMatch keyword (toLowerCase (name a)) = true ->
  matchAdditive keyword a = [].
Proof.
  intros H. unfold matchAdditive, allSearchTerms. simpl. now rewrite H.
Qed.

(** C1. On the scenario of the specification, the catalog with the single
    entry citric-acid named "구연산" and the input "구연산", the keyword is
    the name itself and the first strategy takes the pair, yet the search
    resolves to the empty array: no result with id citric-acid, type exact
    and score 1.0 is returned.  The entry of the bundled snapshot, whose
    aliases repeat the name, fares the same. *)
Theorem exact_hit_scenario_returns_nothing :
  normalizeAndExtractKeywords (js "구연산") = [js "구연산"]
  /\ isExactMatch (js "구연산") (toLowerCase (name citricAcid)) = true
  /\ findAdditiveMatches (js "구연산") [citricAcid] = []
  /\ fst (searchAdditivesWithFuzzyMatching []
            (JString (js "구연산")) (Snapshot [citricAcid]) emptyCache)
     = Fulfilled []
  /\ fst (searchAdditivesWithFuzzyMatching []
            (JString (js "구연산")) (Snapshot [citricAcidSeed]) emptyCache)
     = Fulfilled [].
Proof. repeat split; vm_compute; reflexivity. Qed.

(** ** Catalog cache *)



(** ** Scores of the third and fourth strategies *)

(** C3, as the code has it.  For every pair of a keyword and a search term
    that the third strategy takes, the candidate score is
    min(0.9, (shorter / longer) * 0.85), where longer is the greatest and
    shorter the least of four lengths: those of the lowercased search
    term, of the keyword, and of their two normalized forms; the divisor
    is positive, and the candidate replaces the best match when it beats
    the best score.  Every result of type partial carries that score for
    one of the search terms of its entry. *)
Theorem partial_score_uses_four_lengths {CM : CaseMapping} :
  forall keyword : jsstring,
    (forall (searchTerm : jsstring) (rest : list jsstring)
            (bestMatch : option matchInfo) (bestScore : Q),
        isExactMatch keyword searchTerm = false ->
        isNormalizedExact keyword searchTerm = false ->
        isPartialMatch keyword searchTerm = true ->
        let normalizedKeyword := normalizeText (correctOCRErrors keyword) in
        let normalizedSearchTerm :=
          normalizeText (correctOCRErrors searchTerm) in
        let longer :=
          Z.max (Z.max (len searchTerm) (len keyword))
                (Z.max (len normalizedSearchTerm) (len normalizedKeyword)) in
        let shorter :=
          Z.min (Z.min (len searchTerm) (len keyword))
                (Z.min (len normalizedSearchTerm) (len normalizedKeyword)) in
        let score :=
          Qmin (9 # 10)
               ((inject_Z shorter / inject_Z longer) * (85 # 100))%Q in
        0 < longer
        /\ scanTerms keyword (searchTerm :: rest) bestMatch bestScore
           = if Qltb bestScore score
             then scanTerms keyword rest
                    (Some {| matchType := partial; matchScore := score;
                             matchedTerm := keyword |}) score
             else scanTerms keyword rest bestMatch bestScore)
    /\ (forall (additives : list additive) (r : matchResult),
          In r (findAdditiveMatches keyword additives) ->
          resultType r = partial ->
          exists searchTerm,
            In searchTerm (allSearchTerms (entry r))
            /\ isPartialMatch keyword searchTerm = true
            /\ resultScore r
               = Qmin (9 # 10)
                   ((inject_Z (shorterLength keyword searchTerm)
                     / inject_Z (longerLength keyword searchTerm))
                    * (85 # 100))%Q).
Proof.
  intros keyword. split.
  - intros t rest bm bs E1 E2 E3. cbv zeta.
    split; [exact (longerLength_pos keyword t E1)|].
    simpl. rewrite E1, E2, E3. reflexivity.
  - intros additives r Hin Htype.
    apply findAdditiveMatches_In in Hin as [_ [Hp _]].
    destruct (Hp Htype) as (t & Ht & _ & _ & E3 & Hscore).
    exists t. split; [exact Ht|]. split; [exact E3 | exact Hscore].
Qed.

Lemma partial_score_uses_four_lengths_witness :
  (0 < longerLength (js "abcd") (js "a-b c")
   /\ scanTerms (js "abcd") [js "a-b c"] None 0
      = (Some {| matchType := partial; matchScore := 255 # 500;
                 matchedTerm := js "abcd" |}, (255 # 500)%Q))
  /\ exists searchTerm,
       In searchTerm (allSearchTerms spacedName)
       /\ isPartialMatch (js "abcd") searchTerm = true
       /\ resultScore (hd noMatch spacedMatches)
          = Qmin (9 # 10)
              ((inject_Z (shorterLength (js "abcd") searchTerm)
                / inject_Z (longerLength (js "abcd") searchTerm))
               * (85 # 100))%Q.
Proof.
  destruct (partial_score_uses_four_lengths (js "abcd")) as [Hstep Hres].
  split.
  - destruct (Hstep (js "a-b c") [] None 0%Q) as [Hpos Heq];
      try (vm_compute; reflexivity).
    split; [exact Hpos|]. rewrite Heq. vm_compute. reflexivity.
  - apply (Hres [spacedName] (hd noMatch spacedMatches)).
    + vm_compute. left. reflexivity.
    + reflexivity.
Defined.

(** C3, as stated, fails.  The keyword "abcd" against the name "a-b c" is a
    partial match through the normalized forms "abcd" and "abc"; the
    lengths are 4 and 5 for the raw strings, 4 and 3 for the normalized
    ones.  The score is 0.51 = (3 / 5) * 0.85, which is neither
    (4 / 5) * 0.85, from the two raw strings, nor (3 / 4) * 0.85, from the
    two normalized strings. *)
Lemma partial_score_not_from_one_pair :
  fst (searchAdditivesWithFuzzyMatching []
         (JString (js "abcd")) (Snapshot [spacedName]) emptyCache)
  = Fulfilled spacedMatches
  /\ map resultType spacedMatches = [partial]
  /\ map resultScore spacedMatches = [(255 # 500)%Q]
  /\ len (js "abcd") = 4 /\ len (toLowerCase (js "a-b c")) = 5
  /\ len (normalizedOf (js "abcd")) = 4
  /\ len (normalizedOf (js "a-b c")) = 3
  /\ includes (normalizedOf (js "abcd")) (normalizedOf (js "a-b c")) = true
  /\ ~ ((255 # 500) == Qmin (9 # 10) ((4 # 5) * (85 # 100)))%Q
  /\ ~ ((255 # 500) == Qmin (9 # 10) ((3 # 4) * (85 # 100)))%Q.
Proof.
  repeat split; try (vm_compute; reflexivity);
    vm_compute; discriminate.
Qed.



(** The two sets of the Jaccard quotient are the intersection and the
    union of the characters of the two strings. *)
Lemma setAddAll_In {A} (eqb : A -> A -> bool)
      (eqb_eq : forall x y, eqb x y = true <-> x = y) l :
  forall seen x, In x (setAddAll eqb seen l) <-> In x seen \/ In x l.
Proof.
  induction l as [|y l IH]; intros seen x; simpl; [tauto|].
  destruct (existsb (eqb y) seen) eqn:E; rewrite IH.
  - apply existsb_exists in E as (z & Hz & Ez). apply eqb_eq in Ez. subst z.
    intuition (subst; auto).
  - rewrite in_app_iff. simpl. intuition (subst; auto).
Qed.

Lemma setAddAll_NoDup {A} (eqb : A -> A -> bool)
      (eqb_eq : forall x y, eqb x y = true <-> x = y) l :
  forall seen, NoDup seen -> NoDup (setAddAll eqb seen l).
Proof.
  induction l as [|y l IH]; intros seen Hnd; simpl; [exact Hnd|].
  destruct (existsb (eqb y) seen) eqn:E; apply IH; [exact Hnd|].
  apply NoDup_app; [exact Hnd | repeat constructor; intros [] |].
  intros z Hz [Hy | []]. subst z.
  assert (Hex : existsb (eqb y) seen = true).
  { apply existsb_exists. exists y. split; [exact Hz | now apply eqb_eq]. }
  congruence.
Qed.

Lemma newSet_In (l : list Z) c : In c (newSet Z.eqb l) <-> In c l.
Proof.
  unfold newSet. rewrite (setAddAll_In _ Z.eqb_eq). simpl. tauto.
Qed.

Lemma newSet_NoDup (l : list Z) : NoDup (newSet Z.eqb l).
Proof. apply (setAddAll_NoDup _ Z.eqb_eq). constructor. Qed.

Lemma jaccard_sets (n1 n2 : jsstring) :
  let set1 := newSet Z.eqb n1 in
  let set2 := newSet Z.eqb n2 in
  NoDup (intersectionOf set1 set2) /\ NoDup (unionOf set1 set2)
  /\ (forall c, In c (intersectionOf set1 set2) <-> In c n1 /\ In c n2)
  /\ (forall c, In c (unionOf set1 set2) <-> In c n1 \/ In c n2).
Proof.
  cbv zeta. unfold intersectionOf, unionOf.
  split; [apply newSet_NoDup|]. split; [apply newSet_NoDup|]. split.
  - intros c. rewrite newSet_In, filter_In, newSet_In.
    unfold memC. rewrite existsb_exists. split.
    + intros [H1 (z & Hz & Ez)]. apply Z.eqb_eq in Ez. subst z.
      apply (proj1 (newSet_In n2 c)) in Hz. split; assumption.
    + intros [H1 H2]. split; [exact H1|]. exists c.
      split; [now apply newSet_In | apply Z.eqb_refl].
  - intros c. rewrite newSet_In, in_app_iff, !newSet_In. tauto.
Qed.

(** ** The theorems on the results, at sample searches *)


Lemma search_results_unique_and_best_witness :
  NoDup (map resultId twoKeywordResults)
  /\ forall r, In r twoKeywordResults ->
       In r (foundFor (js "무수구연산, 구연산나트륨") [citricAcid])
       /\ forall x,
            In x (foundFor (js "무수구연산, 구연산나트륨") [citricAcid]) ->
            resultId x = resultId r ->
            (resultScore x <= resultScore r)%Q.
Proof.
  destruct (search_results_unique_and_best []
              (JString (js "무수구연산, 구연산나트륨"))
              (Snapshot [citricAcid]) emptyCache twoKeywordResults)
    as [Hnd Hbest].
  - vm_compute. reflexivity.
  - split; [exact Hnd|]. intros r Hr.
    exact (Hbest (js "무수구연산, 구연산나트륨") eq_refl r Hr).
Defined.

(* ================================================================== *)
(** * Further properties of the normalizer *)
(* ================================================================== *)

Lemma ocrImage_fixed c : flat_map ocrImage (ocrImage c) = ocrImage c.
Proof.
  destruct (existsb (Z.eqb c) correctionKeys) eqn:E.
  - rewrite correctionKeys_eq in E. apply existsb_exists in E as (k & Hk & Ek).
    apply Z.eqb_eq in Ek; subst k.
    repeat (destruct Hk as [<- | Hk]; [reflexivity|]). destruct Hk.
  - rewrite (ocrImage_untouched c E). simpl.
    rewrite (ocrImage_untouched c E). reflexivity.
Qed.

(** X1. The correction is idempotent: a corrected text holds no character the
    table would change again. *)
Theorem correctOCRErrors_idempotent :
  forall text : jsstring,
    correctOCRErrors (correctOCRErrors text) = correctOCRErrors text.
Proof.
  intros text. rewrite !correctOCRErrors_flat_map.
  induction text as [|c text IH]; simpl; [reflexivity|].
  rewrite flat_map_app, IH, ocrImage_fixed. reflexivity.
Qed.

Lemma ocrImage_short c : (List.length (ocrImage c) <= 1)%nat.
Proof.
  destruct (existsb (Z.eqb c) correctionKeys) eqn:E.
  - rewrite correctionKeys_eq in E. apply existsb_exists in E as (k & Hk & Ek).
    apply Z.eqb_eq in Ek; subst k.
    repeat (destruct Hk as [<- | Hk]; [vm_compute; lia|]). destruct Hk.
  - rewrite (ocrImage_untouched c E). simpl. lia.
Qed.

(** X2. The correction never makes a text longer: a character is replaced by
    one character or removed. *)
Theorem correctOCRErrors_not_longer :
  forall text : jsstring, len (correctOCRErrors text) <= len text.
Proof.
  intros text. rewrite correctOCRErrors_flat_map. unfold len.
  apply inj_le.
  induction text as [|c text IH]; simpl; [lia|].
  rewrite length_app. pose proof (ocrImage_short c). lia.
Qed.

(** X3. A normalized text is made of lowercase Basic Latin letters, digits and
    Hangul syllables only, and is never longer than the lowercased text. *)
Theorem normalizeText_alphabet {CM : CaseMapping} :
  forall text : jsstring,
    (forall c, In c (normalizeText text) ->
               inRange 97 122 c || isDigit c || isHangul c = true)
    /\ len (normalizeText text) <= len (toLowerCase text).
Proof.
  intros text. split.
  - intros c Hc. apply normalizeText_In in Hc as (Hlow & _ & Hsep & Hw).
    pose proof (toLowerCase_no_capital text c Hlow) as Hcap.
    unfold isNotWordOrHangul, isWord in Hw. rewrite negb_false_iff in Hw.
    rewrite Hcap in Hw. simpl in Hw.
    assert (Hu : (c =? 95) = false).
    { unfold isSeparator in Hsep. apply orb_false_iff in Hsep as [_ Hm].
      unfold memC in Hm. cbn [existsb] in Hm.
      apply orb_false_iff in Hm as [_ Hm].
      apply orb_false_iff in Hm as [Hm _]. exact Hm. }
    rewrite Hu, orb_false_r in Hw. exact Hw.
  - unfold normalizeText, len. rewrite !replaceClass_nil. apply inj_le.
    eapply Nat.le_trans; [apply filter_length_le|].
    eapply Nat.le_trans; [apply filter_length_le|].
    apply filter_length_le.
Qed.

(** ** Similarity *)

Lemma Qdiv_sizes_nonneg (a b : Z) :
  0 <= a -> 0 <= b -> (0 <= inject_Z a / inject_Z b)%Q.
Proof.
  intros Ha Hb. unfold Qdiv. apply Qmult_le_0_compat.
  - change 0%Q with (inject_Z 0). rewrite <- Zle_Qle. exact Ha.
  - apply Qinv_le_0_compat. change 0%Q with (inject_Z 0).
    rewrite <- Zle_Qle. exact Hb.
Qed.

Lemma size_nonneg {A} (l : list A) : 0 <= size l.
Proof. unfold size. lia. Qed.

Lemma substringBonus_nonneg n1 n2 : (0 <= substringBonus n1 n2)%Q.
Proof.
  rewrite substringBonus_either.
  destruct (includes n1 n2 || includes n2 n1); [discriminate | apply Qle_refl].
Qed.

Lemma similarity_nonneg {CM : CaseMapping} s1 s2 :
  (0 <= calculateStringSimilarity s1 s2)%Q.
Proof.
  unfold calculateStringSimilarity.
  destruct (streq s1 s2); [discriminate|].
  destruct ((len s1 =? 0) || (len s2 =? 0)); [apply Qle_refl|].
  cbv zeta. destruct (streq _ _); [discriminate|].
  apply Q.min_glb; [discriminate|].
  rewrite <- (Qplus_0_l 0). apply Qplus_le_compat.
  - apply Qdiv_sizes_nonneg; apply size_nonneg.
  - apply substringBonus_nonneg.
Qed.

Lemma similarity_le_one {CM : CaseMapping} s1 s2 :
  (calculateStringSimilarity s1 s2 <= 1)%Q.
Proof.
  unfold calculateStringSimilarity.
  destruct (streq s1 s2); [apply Qle_refl|].
  destruct ((len s1 =? 0) || (len s2 =? 0)); [discriminate|].
  cbv zeta. destruct (streq _ _); [apply Qle_refl|].
  apply Q.le_min_l.
Qed.

(** X4. The similarity is a number between 0 and 1, as the documentation of
    [calculateStringSimilarity] says, and it is 1 for equal strings. *)
Theorem calculateStringSimilarity_range {CM : CaseMapping} :
  forall s1 s2 : jsstring,
    (0 <= calculateStringSimilarity s1 s2)%Q
    /\ (calculateStringSimilarity s1 s2 <= 1)%Q
    /\ calculateStringSimilarity s1 s1 = 1%Q.
Proof.
  intros s1 s2. split; [apply similarity_nonneg|].
  split; [apply similarity_le_one|].
  unfold calculateStringSimilarity. now rewrite streq_refl.
Qed.

Lemma streq_sym a b : streq a b = streq b a.
Proof.
  destruct (streq a b) eqn:E1; destruct (streq b a) eqn:E2; try reflexivity.
  - apply streq_eq in E1. subst. rewrite streq_refl in E2. discriminate.
  - apply streq_eq in E2. subst. rewrite streq_refl in E1. discriminate.
Qed.

Lemma same_members_same_size (l1 l2 : list Z) :
  NoDup l1 -> NoDup l2 -> (forall c, In c l1 <-> In c l2) -> size l1 = size l2.
Proof.
  intros H1 H2 H. unfold size. f_equal.
  apply Permutation_length. apply NoDup_Permutation; assumption.
Qed.

Lemma jaccard_sym n1 n2 : jaccard n1 n2 = jaccard n2 n1.
Proof.
  unfold jaccard. cbv zeta.
  destruct (jaccard_sets n1 n2) as (Hi1 & Hu1 & Hmi1 & Hmu1).
  destruct (jaccard_sets n2 n1) as (Hi2 & Hu2 & Hmi2 & Hmu2).
  cbv zeta in *.
  rewrite (same_members_same_size _ _ Hi1 Hi2).
  2:{ intros c. rewrite Hmi1, Hmi2. tauto. }
  rewrite (same_members_same_size _ _ Hu1 Hu2).
  2:{ intros c. rewrite Hmu1, Hmu2. tauto. }
  reflexivity.
Qed.

(** X5. The similarity does not depend on the order of its two arguments. *)
Theorem calculateStringSimilarity_symmetric {CM : CaseMapping} :
  forall s1 s2 : jsstring,
    calculateStringSimilarity s1 s2 = calculateStringSimilarity s2 s1.
Proof.
  intros s1 s2. unfold calculateStringSimilarity.
  rewrite (streq_sym s2 s1), (orb_comm (len s2 =? 0)).
  destruct (streq s1 s2); [reflexivity|].
  destruct ((len s1 =? 0) || (len s2 =? 0)); [reflexivity|].
  cbv zeta.
  rewrite (streq_sym (normalizeText (correctOCRErrors s2))).
  destruct (streq _ _); [reflexivity|].
  rewrite (jaccard_sym (normalizeText (correctOCRErrors s2))).
  rewrite !substringBonus_either, (orb_comm (includes (normalizeText (correctOCRErrors s2)) _)).
  reflexivity.
Qed.

(* ================================================================== *)
(** * Further properties of the scorer *)
(* ================================================================== *)

Section ScorerFacts.
Context {CM : CaseMapping}.

Lemma len_nonneg (s : jsstring) : 0 <= len s.
Proof. unfold len. lia. Qed.

Lemma partialScore_le keyword searchTerm :
  (partialScore keyword searchTerm <= 85 # 100)%Q.
Proof.
  unfold partialScore.
  eapply Qle_trans; [apply Q.le_min_r|].
  set (a := shorterLength keyword searchTerm).
  set (b := longerLength keyword searchTerm).
  assert (Ha : 0 <= a).
  { unfold a, shorterLength.
    pose proof (len_nonneg searchTerm). pose proof (len_nonneg keyword).
    pose proof (len_nonneg (normalizedOf searchTerm)).
    pose proof (len_nonneg (normalizedOf keyword)). lia. }
  assert (Hab : a <= b) by (unfold a, b, shorterLength, longerLength; lia).
  assert (Hr : (inject_Z a / inject_Z b <= 1)%Q).
  { destruct (Z.eq_dec b 0) as [Hb | Hb].
    - rewrite Hb. unfold Qdiv. simpl. rewrite Qmult_0_r. discriminate.
    - apply Qle_shift_div_r.
      + change 0%Q with (inject_Z 0). rewrite <- Zlt_Qlt. lia.
      + rewrite Qmult_1_l. rewrite <- Zle_Qle. exact Hab. }
  setoid_replace (85 # 100)%Q with (1 * (85 # 100))%Q at 2 by ring.
  apply Qmult_le_compat_r; [exact Hr | discriminate].
Qed.

Lemma fuzzyScore_le s1 s2 :
  (calculateStringSimilarity s1 s2 * (7 # 10) <= 7 # 10)%Q.
Proof.
  pose proof (similarity_le_one s1 s2) as Hle.
  setoid_replace (7 # 10)%Q with (1 * (7 # 10))%Q at 2 by ring.
  apply Qmult_le_compat_r; [exact Hle | discriminate].
Qed.

Lemma scanTerms_wellScored keyword : forall terms bestMatch bestScore,
  wellScored keyword bestMatch bestScore ->
  wellScored keyword (fst (scanTerms keyword terms bestMatch bestScore))
                     (snd (scanTerms keyword terms bestMatch bestScore)).
Proof.
  induction terms as [|t rest IH]; intros bm bs Hw; simpl; [exact Hw|].
  pose proof Hw as [Hbs _].
  destruct (isExactMatch keyword t).
  { simpl. split; [exact Hbs|]. split; reflexivity. }
  destruct (isNormalizedExact keyword t).
  { destruct (Qltb bs (95 # 100)); apply IH; [|exact Hw].
    split; [discriminate|]. simpl. repeat split; reflexivity. }
  destruct (isPartialMatch keyword t).
  { destruct (Qltb bs (partialScore keyword t)) eqn:E; apply IH; [|exact Hw].
    apply Qltb_true in E. split.
    - apply Qlt_le_weak. eapply Qle_lt_trans; eassumption.
    - simpl. split; [reflexivity|]. split; [apply partialScore_le|reflexivity]. }
  destruct (Qle_bool (fuzzyThreshold keyword)
                     (calculateStringSimilarity keyword t)
            && Qltb bs (calculateStringSimilarity keyword t * (7 # 10))%Q)
    eqn:E; apply IH; [|exact Hw].
  apply andb_true_iff in E as [_ E]. apply Qltb_true in E. split.
  - apply Qlt_le_weak. eapply Qle_lt_trans; eassumption.
  - simpl. split; [reflexivity|]. split; [apply fuzzyScore_le|reflexivity].
Qed.

Lemma matchAdditive_cases keyword a :
  matchAdditive keyword a = []
  \/ exists m bestScore,
       matchAdditive keyword a = [ {| entry := a; info := m |} ]
       /\ scanTerms keyword (allSearchTerms a) None 0 = (Some m, bestScore)
       /\ Qltb (2 # 10) bestScore = true.
Proof.
  unfold matchAdditive.
  destruct (scanTerms keyword (allSearchTerms a) None 0%Q) as [[m|] bs];
    [|now left].
  destruct (Qltb (2 # 10) bs) eqn:E; [|now left].
  right. exists m, bs. auto.
Qed.

Lemma scanTerms_app keyword pre : forall rest bestMatch bestScore,
  forallb (fun t => negb (isExactMatch keyword t)) pre = true ->
  scanTerms keyword (pre ++ rest) bestMatch bestScore
  = scanTerms keyword rest
      (fst (scanTerms keyword pre bestMatch bestScore))
      (snd (scanTerms keyword pre bestMatch bestScore)).
Proof.
  induction pre as [|t pre IH]; intros rest bm bs Hpre; simpl; [reflexivity|].
  simpl in Hpre. apply andb_true_iff in Hpre as [Ht Hpre].
  apply negb_true_iff in Ht. rewrite Ht.
  destruct (isNormalizedExact keyword t).
  { destruct (Qltb bs (95 # 100)); apply IH, Hpre. }
  destruct (isPartialMatch keyword t).
  { destruct (Qltb bs (partialScore keyword t)); apply IH, Hpre. }
  destruct (Qle_bool _ _ && Qltb bs _); apply IH, Hpre.
Qed.

End ScorerFacts.

Lemma findAdditiveMatches_wellScored {CM : CaseMapping} keyword additives r :
  In r (findAdditiveMatches keyword additives) ->
  In (entry r) additives
  /\ exists bestScore,
       wellScored keyword (Some (info r)) bestScore
       /\ (2 # 10 < bestScore)%Q.
Proof.
  intros Hin. unfold findAdditiveMatches in Hin.
  apply in_flat_map in Hin as (a & Ha & Hr).
  destruct (matchAdditive_cases keyword a) as [E | (m & bs & E & Hscan & Hfloor)];
    rewrite E in Hr; [destruct Hr|].
  destruct Hr as [<- | []]. simpl. split; [exact Ha|].
  exists bs. split; [|now apply Qltb_true].
  assert (Hw0 : wellScored keyword None 0) by (split; [discriminate | exact I]).
  pose proof (scanTerms_wellScored keyword (allSearchTerms a) None 0%Q Hw0)
    as Hw.
  rewrite Hscan in Hw. exact Hw.
Qed.

Lemma wellScored_bounds keyword m bestScore :
  wellScored keyword (Some m) bestScore ->
  (2 # 10 < bestScore)%Q ->
  (2 # 10 < matchScore m)%Q /\ (matchScore m <= 1)%Q.
Proof.
  intros (_ & _ & Htype) Hfloor.
  destruct (matchType m).
  - rewrite Htype. split; [reflexivity | discriminate].
  - destruct Htype as [H95 _]. rewrite H95. split; [reflexivity | discriminate].
  - destruct Htype as [Hle Hbs]. rewrite Hbs in *. split; [exact Hfloor|].
    eapply Qle_trans; [exact Hle | discriminate].
  - destruct Htype as [Hle Hbs]. rewrite Hbs in *. split; [exact Hfloor|].
    eapply Qle_trans; [exact Hle | discriminate].
Qed.

(** X6. Every match [findAdditiveMatches] returns is for an entry of the
    catalog, names the keyword as its matched term, and has a score above
    the floor of 0.2 and at most 1: exactly 1 for an exact match, 0.95
    for a normalized exact one, at most 0.85 for a partial and at most
    0.7 for a fuzzy one. *)
Theorem findAdditiveMatches_scores {CM : CaseMapping} :
  forall (keyword : jsstring) (additives : list additive) (r : matchResult),
    In r (findAdditiveMatches keyword additives) ->
    In (entry r) additives
    /\ matchedTerm (info r) = keyword
    /\ (2 # 10 < resultScore r)%Q
    /\ (resultScore r <= 1)%Q
    /\ match resultType r with
       | exact => resultScore r = 1%Q
       | normalized_exact => resultScore r = (95 # 100)%Q
       | partial => (resultScore r <= 85 # 100)%Q
       | fuzzy => (resultScore r <= 7 # 10)%Q
       end.
Proof.
  intros keyword additives r Hin.
  destruct (findAdditiveMatches_wellScored keyword additives r Hin)
    as (Hentry & bs & Hw & Hfloor).
  destruct (wellScored_bounds keyword (info r) bs Hw Hfloor) as [Hlo Hhi].
  destruct Hw as (_ & Hterm & Htype).
  split; [exact Hentry|]. split; [exact Hterm|].
  split; [exact Hlo|]. split; [exact Hhi|].
  unfold resultType, resultScore.
  destruct (matchType (info r)); tauto.
Qed.

Lemma findAdditiveMatches_scores_witness :
  In (entry (hd noMatch garbledMatches)) [sodiumBenzoate]
  /\ matchedTerm (info (hd noMatch garbledMatches)) = js "안식향산냐트륨"
  /\ (2 # 10 < resultScore (hd noMatch garbledMatches))%Q
  /\ (resultScore (hd noMatch garbledMatches) <= 1)%Q
  /\ (resultScore (hd noMatch garbledMatches) <= 7 # 10)%Q.
Proof.
  apply (findAdditiveMatches_scores (js "안식향산냐트륨") [sodiumBenzoate]
           (hd noMatch garbledMatches)).
  vm_compute. left. reflexivity.
Defined.

Lemma matched_entries {CM : CaseMapping} keyword additives :
  map entry (findAdditiveMatches keyword additives)
  = filter (fun a => match matchAdditive keyword a with
                     | [] => false
                     | _ :: _ => true
                     end) additives.
Proof.
  unfold findAdditiveMatches.
  induction additives as [|a l IH]; simpl; [reflexivity|].
  rewrite map_app, IH.
  destruct (matchAdditive_cases keyword a) as [E | (m & bs & E & _)];
    rewrite E; reflexivity.
Qed.

Lemma findAdditiveMatches_length {CM : CaseMapping} keyword additives :
  (List.length (findAdditiveMatches keyword additives)
   <= List.length additives)%nat.
Proof.
  rewrite <- (length_map entry), matched_entries. apply filter_length_le.
Qed.

(** X7. [findAdditiveMatches] returns at most one match for an entry, and the
    matches come in the order of the catalog: their entries are the
    entries that matched, filtered out of the catalog. *)
Theorem findAdditiveMatches_one_per_entry {CM : CaseMapping} :
  forall (keyword : jsstring) (additives : list additive),
    map entry (findAdditiveMatches keyword additives)
    = filter (fun a => match matchAdditive keyword a with
                       | [] => false
                       | _ :: _ => true
                       end) additives
    /\ (List.length (findAdditiveMatches keyword additives)
        <= List.length additives)%nat.
Proof.
  intros keyword additives. split.
  - apply matched_entries.
  - rewrite <- (length_map entry), matched_entries. apply filter_length_le.
Qed.

(** X8. An exact hit is returned only when the search terms before it had
    already raised the best score above the floor: if the first term of an
    entry that equals the lowercased keyword comes after the terms [pre],
    the entry is returned, as an exact match of score 1, when the best
    score left by [pre] is above 0.2, and is not returned otherwise.  An
    exact hit on the name, the first term, is never returned. *)
Theorem exact_hit_needs_earlier_candidate {CM : CaseMapping} :
  forall (keyword : jsstring) (a : additive)
         (pre : list jsstring) (t : jsstring) (post : list jsstring),
    allSearchTerms a = pre ++ t :: post ->
    forallb (fun t' => negb (isExactMatch keyword t')) pre = true ->
    isExactMatch keyword t = true ->
    matchAdditive keyword a
    = (if Qltb (2 # 10) (snd (scanTerms keyword pre None 0))
       then [ {| entry := a;
                 info := {| matchType := exact; matchScore := 1;
                            matchedTerm := keyword |} |} ]
       else [])
    /\ (pre = [] -> matchAdditive keyword a = []).
Proof.
  intros keyword a pre t post Hterms Hpre Ht.
  assert (H : matchAdditive keyword a
              = if Qltb (2 # 10) (snd (scanTerms keyword pre None 0))
                then [ {| entry := a;
                          info := {| matchType := exact; matchScore := 1;
                                     matchedTerm := keyword |} |} ]
                else []).
  { unfold matchAdditive. rewrite Hterms, (scanTerms_app keyword pre _ _ _ Hpre).
    simpl. rewrite Ht. reflexivity. }
  split; [exact H|]. intros ->. rewrite H. reflexivity.
Qed.

Lemma exact_hit_needs_earlier_candidate_witness :
  matchAdditive (js "구연산") sodiumCitrate
  = [ {| entry := sodiumCitrate;
         info := {| matchType := exact; matchScore := 1;
                    matchedTerm := js "구연산" |} |} ]
  /\ matchAdditive (js "구연산") citricAcid = [].
Proof.
  assert (E1 : allSearchTerms sodiumCitrate
               = [js "구연산나트륨"] ++ js "구연산" :: [])
    by (vm_compute; reflexivity).
  assert (E2 : forallb (fun t' => negb (isExactMatch (js "구연산") t'))
                       [js "구연산나트륨"] = true)
    by (vm_compute; reflexivity).
  assert (E3 : isExactMatch (js "구연산") (js "구연산") = true)
    by (vm_compute; reflexivity).
  assert (E4 : allSearchTerms citricAcid = [] ++ js "구연산" :: [])
    by (vm_compute; reflexivity).
  destruct (exact_hit_needs_earlier_candidate (js "구연산") sodiumCitrate
              [js "구연산나트륨"] (js "구연산") [] E1 E2 E3) as [H1 _].
  destruct (exact_hit_needs_earlier_candidate (js "구연산") citricAcid
              [] (js "구연산") [] E4 eq_refl E3) as [_ H2].
  split; [|exact (H2 eq_refl)].
  rewrite H1. vm_compute. reflexivity.
Defined.

(* ================================================================== *)
(** * Further properties of the deduplication and ranking *)
(* ================================================================== *)

Lemma keys_have_values {V} (m : jsmap V) k :
  In k (map fst m) -> exists v, In (k, v) m.
Proof.
  intros H. apply in_map_iff in H as ([k' v] & Hk & Hin).
  simpl in Hk. subst k'. now exists v.
Qed.

Lemma NoDup_map_inv' {A B} (f : A -> B) (l : list A) :
  NoDup (map f l) -> NoDup l.
Proof.
  induction l as [|x l IH]; simpl; intros H; [constructor|].
  inversion H as [|? ? Hnotin Hnd]; subst.
  constructor; [|apply IH, Hnd].
  intros Hin. apply Hnotin. now apply in_map.
Qed.

(** X9. Deduplication loses no entry: every id among the matches found is the
    id of a result, every result is one of the matches found, and there
    are no more results than matches. *)
Theorem removeDuplicatesAndSort_keeps_every_id :
  forall found : list matchResult,
    (forall x, In x found ->
       exists r, In r (removeDuplicatesAndSort found)
                 /\ resultId r = resultId x)
    /\ (forall r, In r (removeDuplicatesAndSort found) -> In r found)
    /\ (List.length (removeDuplicatesAndSort found) <= List.length found)%nat.
Proof.
  intros found.
  destruct (removeDuplicatesAndSort_spec found) as [Hnd Hbest].
  split; [|split].
  - intros x Hx. unfold removeDuplicatesAndSort.
    destruct (fillUnique_inv found [] [] uniqueInv_nil) as (_ & Hkeys & Hvals).
    simpl in Hkeys, Hvals.
    destruct (keys_have_values _ _ (Hkeys x Hx)) as [v Hv].
    exists v. split.
    + apply (Permutation_in _
               (Permutation_sym (jsSort_perm compareResults _))).
      unfold mapValues. apply in_map_iff. exists (resultId x, v). auto.
    + now destruct (Hvals _ _ Hv).
  - intros r Hr. now destruct (Hbest r Hr).
  - apply NoDup_incl_length.
    + exact (NoDup_map_inv' resultId _ Hnd).
    + intros r Hr. now destruct (Hbest r Hr).
Qed.

Lemma jsSort_of_sorted {A} (cmp : A -> A -> Q) l :
  Sorted (inOrder cmp) l -> jsSort cmp l = l.
Proof.
  induction 1 as [|x l Hs IH Hhd]; simpl; [reflexivity|].
  rewrite IH. destruct Hhd as [|y l' Hxy]; simpl; [reflexivity|].
  unfold inOrder in Hxy. now rewrite Hxy.
Qed.

Lemma mapGet_absent {V} (m : jsmap V) k :
  ~ In k (map fst m) -> mapGet m k = None.
Proof.
  induction m as [|[k' v'] m IH]; simpl; intros H; [reflexivity|].
  destruct (streq k' k) eqn:E.
  - apply streq_eq in E. subst. destruct H. now left.
  - apply IH. intros Hin. apply H. now right.
Qed.

Lemma mapSet_absent {V} (m : jsmap V) k v :
  ~ In k (map fst m) -> mapSet m k v = m ++ [(k, v)].
Proof.
  induction m as [|[k' v'] m IH]; simpl; intros H; [reflexivity|].
  destruct (streq k' k) eqn:E.
  - apply streq_eq in E. subst. destruct H. now left.
  - f_equal. apply IH. intros Hin. apply H. now right.
Qed.

Lemma fillUnique_distinct l : forall m,
  NoDup (map fst m ++ map resultId l) ->
  fillUnique m l = m ++ map (fun r => (resultId r, r)) l.
Proof.
  induction l as [|r l IH]; intros m Hnd; simpl; [now rewrite app_nil_r|].
  assert (Hr : ~ In (resultId r) (map fst m)).
  { intros Hin. simpl in Hnd. apply NoDup_remove_2 in Hnd.
    apply Hnd. apply in_app_iff. now left. }
  rewrite (mapGet_absent m _ Hr), (mapSet_absent m _ r Hr).
  rewrite IH.
  - rewrite <- app_assoc. reflexivity.
  - rewrite map_app. simpl. rewrite <- app_assoc. exact Hnd.
Qed.

(** X10. Ranking a ranked list changes nothing: [removeDuplicatesAndSort] is
    idempotent. *)
Theorem removeDuplicatesAndSort_idempotent :
  forall found : list matchResult,
    removeDuplicatesAndSort (removeDuplicatesAndSort found)
    = removeDuplicatesAndSort found.
Proof.
  intros found.
  destruct (removeDuplicatesAndSort_spec found) as [Hnd _].
  pose proof (removeDuplicatesAndSort_sorted found) as Hs.
  set (out := removeDuplicatesAndSort found) in *.
  unfold removeDuplicatesAndSort at 1.
  rewrite (fillUnique_distinct out []); [|exact Hnd].
  simpl. unfold mapValues. rewrite map_map. simpl. rewrite map_id.
  apply jsSort_of_sorted, Hs.
Qed.

(* ================================================================== *)
(** * Further properties of the keyword extractor *)
(* ================================================================== *)

Ltac orb_parts :=
  repeat match goal with
         | H : (_ || _) = false |- _ =>
           apply orb_false_iff in H; destruct H
         end.

Lemma In_dropWhile p s c : In c (dropWhile p s) -> In c s.
Proof.
  induction s as [|x s IH]; simpl; [tauto|].
  destruct (p x); [right; apply IH; assumption | tauto].
Qed.

Lemma In_trim s c : In c (trim s) -> In c s.
Proof.
  unfold trim. intros H. apply in_rev in H. apply In_dropWhile in H.
  apply in_rev in H. apply In_dropWhile in H. exact H.
Qed.

Lemma replaceClass_In p r s c :
  In c (replaceClass p r s) -> In c r \/ (In c s /\ p c = false).
Proof.
  unfold replaceClass. intros H. apply in_flat_map in H as (x & Hx & Hc).
  destruct (p x) eqn:E; [now left|].
  destruct Hc as [<- | []]. right. auto.
Qed.

Lemma takeWhile_all p s c : In c (takeWhile p s) -> p c = true.
Proof.
  induction s as [|x s IH]; simpl; [tauto|].
  destruct (p x) eqn:E; [|intros []].
  intros [<- | H]; [exact E | apply IH, H].
Qed.

Lemma splitRuns_chars p s : forall cur inRun piece c,
  In piece (splitRuns p cur inRun s) -> In c piece ->
  In c cur \/ (In c s /\ p c = false).
Proof.
  induction s as [|x s IH]; intros cur inRun piece c Hp Hc; simpl in Hp.
  - destruct Hp as [<- | []]. now left.
  - destruct (p x) eqn:E.
    + destruct inRun.
      * destruct (IH _ _ _ _ Hp Hc) as [[] | [H1 H2]]. right. simpl. auto.
      * destruct Hp as [<- | Hp]; [now left|].
        destruct (IH _ _ _ _ Hp Hc) as [[] | [H1 H2]]. right. simpl. auto.
    + destruct (IH _ _ _ _ Hp Hc) as [H | [H1 H2]].
      * apply in_app_iff in H as [H | [<- | []]]; [now left|].
        right. simpl. auto.
      * right. simpl. auto.
Qed.

Lemma hangulRuns_runs s : forall cur run,
  (forall c, In c cur -> isHangul c = true) ->
  In run (hangulRuns cur s) ->
  (forall c, In c run -> isHangul c = true) /\ 2 <= len run.
Proof.
  assert (Hemit : forall cur run,
            (forall c, In c cur -> isHangul c = true) ->
            In run (emitRun cur) ->
            (forall c, In c run -> isHangul c = true) /\ 2 <= len run).
  { intros cur run Hcur Hin. unfold emitRun in Hin.
    destruct (2 <=? len cur) eqn:E; [|destruct Hin].
    destruct Hin as [<- | []]. apply Z.leb_le in E. auto. }
  induction s as [|x s IH]; intros cur run Hcur Hin; simpl in Hin.
  - exact (Hemit cur run Hcur Hin).
  - destruct (isHangul x) eqn:E.
    + apply (IH (cur ++ [x])); [|exact Hin].
      intros c Hc. apply in_app_iff in Hc as [Hc | [<- | []]]; auto.
    + apply in_app_iff in Hin as [Hin | Hin].
      * exact (Hemit cur run Hcur Hin).
      * apply (IH []); [intros c []|exact Hin].
Qed.

Lemma isDigit_isKeywordChar c : isDigit c = true -> isKeywordChar c = true.
Proof.
  unfold isKeywordChar, isWord. intros ->.
  rewrite orb_true_r. reflexivity.
Qed.

Lemma isHangul_isKeywordChar c : isHangul c = true -> isKeywordChar c = true.
Proof. unfold isKeywordChar. intros ->. apply orb_true_r. Qed.

Lemma matchNumbered_cons x s :
  matchNumbered (x :: s)
  = if isHangul x
       && (0 <? len (takeWhile isDigit (dropWhile isHangul (x :: s))))
    then Some (takeWhile isHangul (x :: s),
               takeWhile isDigit (dropWhile isHangul (x :: s)),
               takeWhile isHangul
                 (dropWhile isDigit (dropWhile isHangul (x :: s))))
    else matchNumbered s.
Proof. reflexivity. Qed.

Lemma matchNumbered_groups s : forall g1 g2 g3,
  matchNumbered s = Some (g1, g2, g3) ->
  (forall c, In c g1 -> isHangul c = true)
  /\ (forall c, In c g2 -> isDigit c = true)
  /\ (forall c, In c g3 -> isHangul c = true)
  /\ 0 < len g1 /\ 0 < len g2.
Proof.
  induction s as [|x s IH]; intros g1 g2 g3 H; [discriminate|].
  rewrite matchNumbered_cons in H.
  destruct (isHangul x && _) eqn:E; [|exact (IH _ _ _ H)].
  apply andb_true_iff in E as [Ex Ed]. injection H as <- <- <-.
  split; [intros c Hc; exact (takeWhile_all isHangul (x :: s) c Hc)|].
  split; [intros c Hc;
          exact (takeWhile_all isDigit (dropWhile isHangul (x :: s)) c Hc)|].
  split; [intros c Hc;
          exact (takeWhile_all isHangul
                   (dropWhile isDigit (dropWhile isHangul (x :: s))) c Hc)|].
  split.
  - cbn [takeWhile]. rewrite Ex. unfold len. cbn [List.length]. lia.
  - apply Z.ltb_lt in Ed. exact Ed.
Qed.

Section ExtractorFacts.
Context {CM : CaseMapping}.

Lemma normalizeAndExtractKeywords_parts text :
  normalizeAndExtractKeywords text
  = slice0 15
      (jsSort byLengthDescending
        (filter (fun keyword => len keyword >? 1)
          (newSet streq (allKeywordsOf text)))).
Proof. reflexivity. Qed.

Lemma normalizedOfInput_chars text c :
  In c (normalizedOfInput text) ->
  isDelimiter c = false -> isKeywordChar c = true.
Proof.
  unfold normalizedOfInput. intros Hin Hd.
  apply In_trim in Hin. apply replaceClass_In in Hin as [[<- | []] | [_ Hs]].
  - discriminate.
  - unfold isOtherSpecial in Hs. apply negb_false_iff in Hs.
    unfold isDelimiter, memC in Hd. cbn [existsb] in Hd.
    unfold memC in Hs. cbn [existsb] in Hs. orb_parts.
    repeat match goal with
           | K : (c =? _) = false |- _ => rewrite K in Hs; clear K
           | K : isSpace c = false |- _ => rewrite K in Hs; clear K
           end.
    simpl in Hs. rewrite !orb_false_r in Hs. exact Hs.
Qed.

Lemma rawKeywordsOf_chars text keyword c :
  In keyword (rawKeywordsOf text) -> In c keyword -> isKeywordChar c = true.
Proof.
  unfold rawKeywordsOf. intros Hk Hc.
  apply filter_In in Hk as [Hk _]. apply filter_In in Hk as [Hk _].
  apply in_map_iff in Hk as (piece & <- & Hp).
  apply In_trim in Hc.
  destruct (splitRuns_chars _ _ _ _ _ _ Hp Hc) as [[] | [Hin Hd]].
  exact (normalizedOfInput_chars text c Hin Hd).
Qed.

Lemma numberedParts_chars keyword part c :
  (forall c', In c' keyword -> isKeywordChar c' = true) ->
  In part (numberedParts keyword) -> In c part -> isKeywordChar c = true.
Proof.
  intros Hk Hp Hc. unfold numberedParts in Hp.
  destruct (matchNumbered keyword) as [[[g1 g2] g3]|] eqn:E; [|destruct Hp].
  destruct (matchNumbered_groups _ _ _ _ E) as (H1 & H2 & H3 & _).
  destruct Hp as [<- | Hp]; [auto|].
  apply in_app_iff in Hp as [Hp | Hp].
  - destruct (len g1 >? 1); [|destruct Hp]. destruct Hp as [<- | []].
    apply isHangul_isKeywordChar; auto.
  - destruct (len g3 >? 0); [|destruct Hp]. destruct Hp as [<- | []].
    apply in_app_iff in Hc as [Hc | Hc].
    + apply isDigit_isKeywordChar; auto.
    + apply isHangul_isKeywordChar; auto.
Qed.

Lemma includes_one_In s c : includes s [c] = true -> In c s.
Proof.
  induction s as [|x s IH]; simpl; [discriminate|].
  destruct (x =? c) eqn:E.
  - apply Z.eqb_eq in E. auto.
  - simpl. intros H. right. apply IH. exact H.
Qed.

Lemma filter_none {A} (f : A -> bool) l :
  (forall x, In x l -> f x = false) -> filter f l = [].
Proof.
  induction l as [|x l IH]; simpl; intros H; [reflexivity|].
  rewrite (H x (or_introl eq_refl)). apply IH. auto.
Qed.

Lemma spacelessWordsOf_nil text : spacelessWordsOf text = [].
Proof.
  unfold spacelessWordsOf.
  rewrite (filter_none (fun word => includes word [32])); [reflexivity|].
  intros word Hw.
  destruct (includes word [32]) eqn:E; [|reflexivity].
  apply includes_one_In in E.
  pose proof (rawKeywordsOf_chars text word 32 Hw E) as H. discriminate.
Qed.

Lemma allKeywordsOf_chars text keyword c :
  In keyword (allKeywordsOf text) -> In c keyword -> isKeywordChar c = true.
Proof.
  unfold allKeywordsOf. rewrite spacelessWordsOf_nil, app_nil_r.
  intros Hk Hc.
  assert (Hkor : forall w c', In w (koreanWordsOf text) -> In c' w ->
                              isKeywordChar c' = true).
  { intros w c' Hw Hc'. apply isHangul_isKeywordChar.
    unfold koreanWordsOf in Hw.
    destruct (hangulRuns_runs text [] w (fun _ H => match H with end) Hw)
      as [H _].
    auto. }
  apply in_app_iff in Hk as [Hk | Hk];
    [exact (rawKeywordsOf_chars text keyword c Hk Hc)|].
  apply in_app_iff in Hk as [Hk | Hk].
  - apply filter_In in Hk as [Hk _]. exact (Hkor _ _ Hk Hc).
  - unfold numberedAdditivesOf in Hk.
    apply in_flat_map in Hk as (w & Hw & Hp).
    apply (numberedParts_chars w keyword c); [|exact Hp|exact Hc].
    intros c' Hc'. apply in_app_iff in Hw as [Hw | Hw].
    + exact (rawKeywordsOf_chars text w c' Hw Hc').
    + exact (Hkor _ _ Hw Hc').
Qed.

Lemma keywords_from_all text keyword :
  In keyword (normalizeAndExtractKeywords text) ->
  In keyword (allKeywordsOf text) /\ 2 <= len keyword.
Proof.
  rewrite normalizeAndExtractKeywords_parts. unfold slice0. intros H.
  apply In_firstn in H.
  apply (Permutation_in _ (jsSort_perm byLengthDescending _)) in H.
  apply filter_In in H as [H Hlen].
  unfold newSet in H. apply (setAddAll_In _ streq_eq) in H as [[] | H].
  split; [exact H|]. apply Z.gtb_lt in Hlen. lia.
Qed.

End ExtractorFacts.

Lemma Sorted_weaken {A} (R R' : A -> A -> Prop) l :
  (forall a b, R a b -> R' a b) -> Sorted R l -> Sorted R' l.
Proof.
  intros HR. induction 1 as [|x l Hs IH Hhd]; constructor; [exact IH|].
  destruct Hhd; constructor. auto.
Qed.

Lemma byLengthDescending_inOrder a b :
  inOrder byLengthDescending a b <-> len b <= len a.
Proof.
  unfold inOrder, byLengthDescending. rewrite Qltb_false.
  change 0%Q with (inject_Z 0). rewrite <- Zle_Qle. lia.
Qed.

Lemma byLengthDescending_total a b :
  Qltb 0 (byLengthDescending a b) = true -> inOrder byLengthDescending b a.
Proof.
  intros H. apply byLengthDescending_inOrder.
  apply Qltb_true in H. unfold byLengthDescending in H.
  change 0%Q with (inject_Z 0) in H. rewrite <- Zlt_Qlt in H. lia.
Qed.

(** X11. The keyword list is bounded, without repetition, made of keywords of
    two characters or more, and ordered by length, longest first. *)
Theorem keywords_bounded_distinct_longest_first {CM : CaseMapping} :
  forall text : jsstring,
    (List.length (normalizeAndExtractKeywords text) <= 15)%nat
    /\ NoDup (normalizeAndExtractKeywords text)
    /\ (forall keyword, In keyword (normalizeAndExtractKeywords text) ->
                        2 <= len keyword)
    /\ Sorted (fun a b => len b <= len a) (normalizeAndExtractKeywords text).
Proof.
  intros text. split; [|split; [|split]].
  - rewrite normalizeAndExtractKeywords_parts. apply firstn_le_length.
  - rewrite normalizeAndExtractKeywords_parts. apply NoDup_firstn.
    eapply Permutation_NoDup;
      [apply Permutation_sym, jsSort_perm|].
    apply NoDup_filter. apply (setAddAll_NoDup _ streq_eq). constructor.
  - intros keyword Hk. now destruct (keywords_from_all text keyword Hk).
  - rewrite normalizeAndExtractKeywords_parts. apply Sorted_firstn.
    apply (Sorted_weaken (inOrder byLengthDescending)).
    + intros a b. apply byLengthDescending_inOrder.
    + apply jsSort_sorted. exact byLengthDescending_total.
Qed.

Lemma isKeywordChar_not_delimiter c :
  isKeywordChar c = true -> isDelimiter c = false /\ isSpace c = false.
Proof.
  unfold isKeywordChar, isWord, isDigit, isHangul, inRange. intros H.
  assert (Hr : (65 <= c <= 90) \/ (97 <= c <= 122) \/ (48 <= c <= 57)
               \/ c = 95 \/ (0xAC00 <= c <= 0xD7A3)).
  { rewrite !orb_true_iff, !andb_true_iff, !Z.leb_le, Z.eqb_eq in H. lia. }
  assert (Hs : isSpace c = false).
  { unfold isSpace, memC, inRange. cbn [existsb].
    repeat (apply orb_false_iff; split);
      try (apply Z.eqb_neq; lia); try reflexivity.
    apply andb_false_iff. rewrite !Z.leb_gt. lia. }
  split; [|exact Hs].
  unfold isDelimiter. rewrite Hs, orb_false_r.
  unfold memC, middleDot, bullet. cbn [existsb].
  repeat (apply orb_false_iff; split);
    try (apply Z.eqb_neq; lia); reflexivity.
Qed.

(** X12. Every keyword is made of word characters (letters, digits, the
    underscore) and Hangul syllables only: it holds no white space and
    none of the delimiters. *)
Theorem keywords_hold_word_characters_only {CM : CaseMapping} :
  forall (text keyword : jsstring) (c : Z),
    In keyword (normalizeAndExtractKeywords text) ->
    In c keyword ->
    isWord c || isHangul c = true
    /\ isDelimiter c = false
    /\ isSpace c = false.
Proof.
  intros text keyword c Hk Hc.
  destruct (keywords_from_all text keyword Hk) as [Hall _].
  pose proof (allKeywordsOf_chars text keyword c Hall Hc) as H.
  split; [exact H|]. exact (isKeywordChar_not_delimiter c H).
Qed.

Lemma keywords_hold_word_characters_only_witness :
  isWord 95 || isHangul 95 = true
  /\ isDelimiter 95 = false
  /\ isSpace 95 = false.
Proof.
  apply (keywords_hold_word_characters_only
           (js "구아 검, ab_c (E-330)") (js "ab_c") 95).
  - vm_compute. tauto.
  - vm_compute. tauto.
Defined.

Lemma dropWhile_all p s :
  (forall c, In c s -> p c = true) -> dropWhile p s = [].
Proof.
  induction s as [|x s IH]; simpl; intros H; [reflexivity|].
  rewrite (H x (or_introl eq_refl)). apply IH. auto.
Qed.

Lemma matchNumbered_hangul s :
  (forall c, In c s -> isHangul c = true) -> matchNumbered s = None.
Proof.
  induction s as [|x s IH]; intros H; [reflexivity|].
  rewrite matchNumbered_cons, (dropWhile_all isHangul (x :: s) H).
  simpl. rewrite andb_false_r. apply IH. intros c Hc. apply H. now right.
Qed.

Lemma flat_map_none {A B} (f : A -> list B) l :
  (forall x, In x l -> f x = []) -> flat_map f l = [].
Proof.
  induction l as [|x l IH]; simpl; intros H; [reflexivity|].
  rewrite (H x (or_introl eq_refl)). apply IH. auto.
Qed.

(** X13. Two of the extraction paths are inert.  A raw keyword never holds a
    space, the text being split at white space, so no space-collapsed
    compound is ever emitted; and a run of Hangul syllables never holds a
    digit, so the numbered pattern fires on raw keywords only.  The
    keywords are drawn from the raw keywords, the Hangul runs and the
    numbered parts of the raw keywords. *)
Theorem compound_and_korean_numbered_paths_inert {CM : CaseMapping} :
  forall text : jsstring,
    spacelessWordsOf text = []
    /\ flat_map numberedParts (koreanWordsOf text) = []
    /\ normalizeAndExtractKeywords text
       = slice0 15
           (jsSort byLengthDescending
             (filter (fun keyword => len keyword >? 1)
               (newSet streq
                 (rawKeywordsOf text
                  ++ filter (fun word => (len word >? 1)
                                         && negb (isCommonWord word))
                            (koreanWordsOf text)
                  ++ flat_map numberedParts (rawKeywordsOf text))))).
Proof.
  intros text.
  assert (Hk : flat_map numberedParts (koreanWordsOf text) = []).
  { apply flat_map_none. intros w Hw. unfold numberedParts.
    rewrite matchNumbered_hangul; [reflexivity|].
    unfold koreanWordsOf in Hw.
    now destruct (hangulRuns_runs text [] w (fun _ H => match H with end) Hw). }
  split; [apply spacelessWordsOf_nil|]. split; [exact Hk|].
  rewrite normalizeAndExtractKeywords_parts. unfold allKeywordsOf.
  rewrite spacelessWordsOf_nil, app_nil_r.
  unfold numberedAdditivesOf. rewrite flat_map_app, Hk, app_nil_r.
  reflexivity.
Qed.

(* ================================================================== *)
(** * Further properties of the catalog cache *)
(* ================================================================== *)

(** The states the cache can reach from the empty one: empty, loading,
    loaded. *)
Lemma cache_states (additiveData : list additive) (events : list cacheEvent) :
  let st := runCache additiveData events emptyCache in
  (additivesCache st = None /\ cacheLoadPromise st = false
   /\ fetches st = 0%nat)
  \/ (additivesCache st = None /\ cacheLoadPromise st = true
      /\ fetches st = 1%nat)
  \/ ((exists catalog, additivesCache st = Some catalog)
      /\ cacheLoadPromise st = false /\ fetches st = 1%nat).
Proof.
  cbv zeta. unfold runCache.
  assert (H0 : (additivesCache emptyCache = None
                /\ cacheLoadPromise emptyCache = false
                /\ fetches emptyCache = 0%nat)
               \/ (additivesCache emptyCache = None
                   /\ cacheLoadPromise emptyCache = true
                   /\ fetches emptyCache = 1%nat)
               \/ ((exists catalog, additivesCache emptyCache = Some catalog)
                   /\ cacheLoadPromise emptyCache = false
                   /\ fetches emptyCache = 1%nat)).
  { left. repeat split. }
  revert H0. generalize emptyCache as st.
  induction events as [|e events IH]; intros st H; simpl; [exact H|].
  apply IH. destruct st as [cache promise n]. simpl in H.
  destruct H as [(-> & -> & ->) | [(-> & -> & ->) | ((c & ->) & -> & ->)]];
    destruct e as [|reply]; simpl; try tauto.
  - right. right. split; [eexists; reflexivity | tauto].
  - right. right. split; [eexists; reflexivity | tauto].
  - right. right. split; [eexists; reflexivity | tauto].
Qed.

(** X14. Whatever calls enter and however the load settles, the store is asked
    at most once in the life of the process, also when calls arrive while
    the load is in flight; a catalog is in the cache only after that one
    fetch, and before it the cache is as it was at the start. *)
Theorem cache_fetches_at_most_once :
  forall (additiveData : list additive) (events : list cacheEvent),
    let st := runCache additiveData events emptyCache in
    (fetches st <= 1)%nat
    /\ (forall catalog, additivesCache st = Some catalog ->
                        fetches st = 1%nat)
    /\ (fetches st = 0%nat -> st = emptyCache).
Proof.
  intros additiveData events. cbv zeta.
  pose proof (cache_states additiveData events) as H. cbv zeta in H.
  destruct (runCache additiveData events emptyCache) as [cache promise n].
  simpl in *.
  destruct H as [(-> & -> & ->) | [(-> & -> & ->) | ((c & ->) & -> & ->)]];
    repeat split; try lia; try discriminate; try reflexivity.
Qed.

(** X15. Once a catalog is in the cache it stays: no later call and no late
    answer of the store replaces it or issues a fetch. *)
Theorem cache_written_once :
  forall (additiveData : list additive) (events : list cacheEvent)
         (st : cacheState) (catalog : list additive),
    additivesCache st = Some catalog ->
    cacheLoadPromise st = false ->
    runCache additiveData events st = st.
Proof.
  intros additiveData events st catalog Hc Hp. unfold runCache.
  induction events as [|e events IH]; simpl; [reflexivity|].
  replace (cacheStep additiveData st e) with st; [exact IH|].
  destruct e as [|reply]; simpl.
  - unfold enterGetCachedAdditives. rewrite Hc. reflexivity.
  - rewrite Hp. reflexivity.
Qed.

Lemma cache_written_once_witness :
  runCache [sodiumBenzoate]
           [CallEnters; LoadSettles (Snapshot [citricAcid]); CallEnters]
           (snd (getCachedAdditives [sodiumBenzoate] StoreFails emptyCache))
  = snd (getCachedAdditives [sodiumBenzoate] StoreFails emptyCache).
Proof.
  apply (cache_written_once [sodiumBenzoate] _ _ [sodiumBenzoate]);
    reflexivity.
Defined.




(* ================================================================== *)
(** * Further properties of the aggregator *)
(* ================================================================== *)

Section AggregatorFacts.
Context {CM : CaseMapping}.

Lemma collectMatches_In all keywords : forall found r,
  In r (collectMatches keywords all found) ->
  In r found
  \/ exists keyword, In keyword keywords
                     /\ In r (findAdditiveMatches keyword all).
Proof.
  induction keywords as [|k rest IH]; intros found r H; simpl in H;
    [now left|].
  assert (Hstep : In r (found ++ findAdditiveMatches k all) ->
                  In r found
                  \/ exists keyword, In keyword (k :: rest)
                       /\ In r (findAdditiveMatches keyword all)).
  { intros Hin. apply in_app_iff in Hin as [Hin | Hin]; [now left|].
    right. exists k. split; [now left | exact Hin]. }
  destruct (10 <=? size (found ++ findAdditiveMatches k all));
    [exact (Hstep H)|].
  destruct (IH _ _ H) as [Hin | (k' & Hk' & Hr)]; [exact (Hstep Hin)|].
  right. exists k'. split; [now right | exact Hr].
Qed.

Lemma collectMatches_length all keywords : forall found,
  (List.length found < 10)%nat ->
  (List.length (collectMatches keywords all found)
   <= 9 + List.length all)%nat.
Proof.
  induction keywords as [|k rest IH]; intros found Hlt; simpl; [lia|].
  pose proof (findAdditiveMatches_length k all) as Hlen.
  destruct (10 <=? size (found ++ findAdditiveMatches k all)) eqn:E.
  - rewrite length_app. lia.
  - apply IH. apply Z.leb_gt in E. unfold size in E. lia.
Qed.

End AggregatorFacts.

(** X18. Where the results of a search come from: each is for an entry of the
    catalog the cache served, names one of the first six keywords of the
    text as its matched term, and has a score above 0.2 and at most 1. *)
Theorem search_results_provenance {CM : CaseMapping} :
  forall (additiveData : list additive) (s : jsstring)
         (reply : storeReply) (st : cacheState)
         (results : list matchResult) (r : matchResult),
    fst (searchAdditivesWithFuzzyMatching additiveData (JString s) reply st)
    = Fulfilled results ->
    In r results ->
    In (entry r) (fst (getCachedAdditives additiveData reply st))
    /\ In (matchedTerm (info r)) (slice0 6 (normalizeAndExtractKeywords s))
    /\ (2 # 10 < resultScore r)%Q
    /\ (resultScore r <= 1)%Q.
Proof.
  intros additiveData s reply st results r Hres Hr.
  rewrite search_string in Hres. apply Fulfilled_inj in Hres. subst results.
  unfold slice0 in Hr at 1. apply In_firstn in Hr.
  destruct (removeDuplicatesAndSort_spec
              (foundFor s (fst (getCachedAdditives additiveData reply st))))
    as [_ Hsub].
  apply Hsub in Hr as [Hr _]. unfold foundFor in Hr.
  apply collectMatches_In in Hr as [[] | (k & Hk & Hin)].
  destruct (findAdditiveMatches_wellScored k _ r Hin)
    as (Hentry & bs & Hw & Hfloor).
  destruct (wellScored_bounds k (info r) bs Hw Hfloor) as [Hlo Hhi].
  destruct Hw as (_ & Hterm & _).
  split; [exact Hentry|]. split; [|split; assumption].
  rewrite Hterm. unfold slice0 in *.
  rewrite firstn_firstn in Hk. simpl in Hk. exact Hk.
Qed.

Lemma search_results_provenance_witness :
  In (entry (hd noMatch citrateResults))
     (fst (getCachedAdditives []
             (Snapshot [potassiumCitrate; anhydrousCitricAcid]) emptyCache))
  /\ In (matchedTerm (info (hd noMatch citrateResults)))
        (slice0 6 (normalizeAndExtractKeywords (js "구연산")))
  /\ (2 # 10 < resultScore (hd noMatch citrateResults))%Q
  /\ (resultScore (hd noMatch citrateResults) <= 1)%Q.
Proof.
  apply (search_results_provenance [] (js "구연산")
           (Snapshot [potassiumCitrate; anhydrousCitricAcid]) emptyCache
           citrateResults).
  - vm_compute. reflexivity.
  - vm_compute. left. reflexivity.
Defined.

(** X19. The keyword loop stops early: it never collects more than nine
    matches plus one pass over the catalog, however many keywords the
    text has. *)
Theorem found_matches_bounded {CM : CaseMapping} :
  forall (s : jsstring) (allAdditives : list additive),
    (List.length (foundFor s allAdditives)
     <= 9 + List.length allAdditives)%nat.
Proof.
  intros s allAdditives. unfold foundFor.
  apply collectMatches_length. simpl. lia.
Qed.

(** ** Text without word characters *)

Section NoWordCharacters.
Context {CM : CaseMapping}.

Lemma plain_untouched c :
  plain c = true -> existsb (Z.eqb c) correctionKeys = false.
Proof.
  intros H. rewrite correctionKeys_eq. cbn [existsb].
  repeat (apply orb_false_iff; split);
    try (apply Z.eqb_neq; intros ->; vm_compute in H; discriminate).
  reflexivity.
Qed.

Lemma plain_not_keyword c : plain c = true -> isKeywordChar c = false.
Proof.
  unfold plain, isKeywordChar. intros H.
  apply andb_true_iff in H as [Hr Hw]. apply negb_true_iff in Hw.
  rewrite Hw. simpl. unfold isHangul, inRange in *.
  apply andb_true_iff in Hr as [_ Hr]. apply Z.leb_le in Hr.
  apply andb_false_iff. left. apply Z.leb_gt. lia.
Qed.

Lemma plain_uncased c : plain c = true -> uncased c = true.
Proof.
  unfold plain, uncased, isWord. intros H.
  apply andb_true_iff in H as [Hr Hw]. apply negb_true_iff in Hw.
  orb_parts. rewrite Hr.
  match goal with K : inRange 65 90 c = false |- _ => rewrite K end.
  reflexivity.
Qed.

Lemma correctOCRErrors_plain s :
  forallb plain s = true -> correctOCRErrors s = s.
Proof.
  rewrite correctOCRErrors_flat_map.
  induction s as [|c s IH]; simpl; intros H; [reflexivity|].
  apply andb_true_iff in H as [Hc Hs].
  rewrite (ocrImage_untouched c (plain_untouched c Hc)), (IH Hs).
  reflexivity.
Qed.

Lemma forallb_weaken {A} (f g : A -> bool) l :
  (forall x, f x = true -> g x = true) ->
  forallb f l = true -> forallb g l = true.
Proof.
  intros Hfg H. apply forallb_forall. intros x Hx.
  apply Hfg. exact (proj1 (forallb_forall f l) H x Hx).
Qed.

Lemma In_collapseSpaces s : forall inRun c,
  In c (collapseSpaces inRun s) -> c = 32 \/ In c s.
Proof.
  induction s as [|x s IH]; intros inRun c H; simpl in H; [destruct H|].
  destruct (isSpace x).
  - destruct inRun.
    + destruct (IH _ _ H); [now left | right; now right].
    + destruct H as [<- | H]; [now left|].
      destruct (IH _ _ H); [now left | right; now right].
  - destruct H as [<- | H]; [right; now left|].
    destruct (IH _ _ H); [now left | right; now right].
Qed.

Lemma normalizedOfInput_source text c :
  In c (normalizedOfInput text) ->
  c = 32 \/ In c (toLowerCase (correctOCRErrors text)).
Proof.
  unfold normalizedOfInput. intros H. apply In_trim in H.
  apply replaceClass_In in H as [[<- | []] | [H _]]; [now left|].
  apply In_collapseSpaces in H as [-> | H]; [now left|].
  apply replaceClass_In in H as [[<- | []] | [H _]]; [now left|].
  now right.
Qed.

Lemma rawKeywordsOf_source text keyword c :
  In keyword (rawKeywordsOf text) -> In c keyword ->
  In c (normalizedOfInput text).
Proof.
  unfold rawKeywordsOf. intros Hk Hc.
  apply filter_In in Hk as [Hk _]. apply filter_In in Hk as [Hk _].
  apply in_map_iff in Hk as (piece & <- & Hp).
  apply In_trim in Hc.
  destruct (splitRuns_chars _ _ _ _ _ _ Hp Hc) as [[] | [Hin _]].
  exact Hin.
Qed.

Lemma hangulRuns_none s :
  (forall c, In c s -> isHangul c = false) -> hangulRuns [] s = [].
Proof.
  induction s as [|x s IH]; intros H; [reflexivity|].
  simpl. rewrite (H x (or_introl eq_refl)). simpl. apply IH.
  intros c Hc. apply H. now right.
Qed.

Lemma no_keywords_in_plain_text s :
  forallb plain s = true -> normalizeAndExtractKeywords s = [].
Proof.
  intros H.
  assert (Hraw : rawKeywordsOf s = []).
  { destruct (rawKeywordsOf s) as [|k l] eqn:E; [reflexivity|]. exfalso.
    assert (Hk : In k (rawKeywordsOf s)) by (rewrite E; now left).
    assert (Hlen : 2 <= len k).
    { unfold rawKeywordsOf in Hk. apply filter_In in Hk as [Hk _].
      apply filter_In in Hk as [_ Hk]. apply Z.gtb_lt in Hk. lia. }
    destruct k as [|c k]; [unfold len in Hlen; simpl in Hlen; lia|].
    pose proof (rawKeywordsOf_chars s (c :: k) c Hk (or_introl eq_refl))
      as Hkc.
    pose proof (rawKeywordsOf_source s (c :: k) c Hk (or_introl eq_refl))
      as Hsrc.
    apply normalizedOfInput_source in Hsrc as [-> | Hsrc]; [discriminate|].
    rewrite (correctOCRErrors_plain s H) in Hsrc.
    rewrite (toLowerCase_uncased s
               (forallb_weaken plain uncased s plain_uncased H)) in Hsrc.
    pose proof (proj1 (forallb_forall plain s) H c Hsrc) as Hp.
    rewrite (plain_not_keyword c Hp) in Hkc. discriminate. }
  assert (Hkor : koreanWordsOf s = []).
  { apply hangulRuns_none. intros c Hc.
    pose proof (proj1 (forallb_forall plain s) H c Hc) as Hp.
    apply plain_not_keyword in Hp. unfold isKeywordChar in Hp.
    now apply orb_false_iff in Hp. }
  rewrite normalizeAndExtractKeywords_parts. unfold allKeywordsOf.
  rewrite spacelessWordsOf_nil. unfold numberedAdditivesOf.
  rewrite Hraw, Hkor. reflexivity.
Qed.

End NoWordCharacters.

(** X20. A text without word characters finds nothing: when the text is made
    of Basic Latin characters other than letters, digits and the
    underscore (the empty text, blanks, punctuation, control characters),
    no keyword is extracted and the search resolves to the empty array,
    whatever the catalog. *)
Theorem search_without_word_characters {CM : CaseMapping} :
  forall (additiveData : list additive) (s : jsstring)
         (reply : storeReply) (st : cacheState),
    forallb (fun c => inRange 0 127 c && negb (isWord c)) s = true ->
    normalizeAndExtractKeywords s = []
    /\ fst (searchAdditivesWithFuzzyMatching additiveData (JString s)
                                            reply st)
       = Fulfilled [].
Proof.
  intros additiveData s reply st H.
  pose proof (no_keywords_in_plain_text s H) as Hk.
  split; [exact Hk|].
  rewrite search_string. unfold foundFor. rewrite Hk. reflexivity.
Qed.

Lemma search_without_word_characters_witness :
  normalizeAndExtractKeywords (js " , ; (-) ") = []
  /\ fst (searchAdditivesWithFuzzyMatching [] (JString (js " , ; (-) "))
            (Snapshot [citricAcid]) emptyCache)
     = Fulfilled [].
Proof.
  apply (search_without_word_characters [] (js " , ; (-) ")
           (Snapshot [citricAcid]) emptyCache).
  vm_compute. reflexivity.
Defined.

(* ================================================================== *)
(** * Properties of the callers *)
(* ================================================================== *)

Lemma collapseRuns_In p s : forall inRun c,
  In c (collapseRuns p inRun s) -> c = 32 \/ (In c s /\ p c = false).
Proof.
  induction s as [|x s IH]; intros inRun c H; simpl in H; [destruct H|].
  destruct (p x) eqn:E.
  - destruct inRun.
    + destruct (IH _ _ H) as [-> | [H1 H2]]; [now left|].
      right. split; [now right | exact H2].
    + destruct H as [<- | H]; [now left|].
      destruct (IH _ _ H) as [-> | [H1 H2]]; [now left|].
      right. split; [now right | exact H2].
  - destruct H as [<- | H]; [right; split; [now left | exact E]|].
    destruct (IH _ _ H) as [-> | [H1 H2]]; [now left|].
    right. split; [now right | exact H2].
Qed.

Lemma dropWhile_head p s c r : dropWhile p s = c :: r -> p c = false.
Proof.
  induction s as [|x s IH]; simpl; [discriminate|].
  destruct (p x) eqn:E; [exact IH|].
  intros H. injection H as <- _. exact E.
Qed.

Lemma dropWhile_snoc p s x :
  p x = false -> dropWhile p (s ++ [x]) = dropWhile p s ++ [x].
Proof.
  intros Hx. induction s as [|y s IH]; simpl; [now rewrite Hx|].
  destruct (p y); [exact IH | reflexivity].
Qed.

(** A trimmed string neither starts nor ends with white space. *)
Lemma trim_ends s :
  (forall c, hd_error (trim s) = Some c -> isSpace c = false)
  /\ (forall c, hd_error (rev (trim s)) = Some c -> isSpace c = false).
Proof.
  unfold trim. split; intros c H.
  - destruct (dropWhile isSpace s) as [|x d] eqn:E; [discriminate|].
    pose proof (dropWhile_head _ _ _ _ E) as Hx.
    simpl in H. rewrite (dropWhile_snoc isSpace (rev d) x Hx) in H.
    rewrite rev_app_distr in H. simpl in H. injection H as <-. exact Hx.
  - rewrite rev_involutive in H.
    destruct (dropWhile isSpace (rev (dropWhile isSpace s))) as [|x d] eqn:E;
      [discriminate|].
    simpl in H. injection H as <-. exact (dropWhile_head _ _ _ _ E).
Qed.

Lemma cleanOcrText_chars t c :
  In c (cleanOcrText t) ->
  isOcrNoise c = false /\ (isSpace c = true -> c = 32).
Proof.
  unfold cleanOcrText. intros H. apply In_trim in H.
  apply replaceClass_In in H as [[<- | []] | [H Hn]].
  - split; [reflexivity | intros _; reflexivity].
  - split; [exact Hn|]. intros Hs.
    apply collapseRuns_In in H as [-> | [_ Hs']]; [reflexivity|].
    congruence.
Qed.

Lemma cleanChar_spec c :
  cleanChar c = true ->
  isOcrNoise c = false /\ (isSpace c = true -> c = 32).
Proof.
  unfold cleanChar. intros H. apply andb_true_iff in H as [H1 H2].
  apply negb_true_iff in H1. split; [exact H1|]. intros Hs.
  rewrite Hs in H2. simpl in H2. now apply Z.eqb_eq.
Qed.

Lemma fallback_clean draw :
  3 <= len (getFallbackIngredients draw)
  /\ forallb cleanChar (getFallbackIngredients draw) = true
  /\ (forall c, hd_error (getFallbackIngredients draw) = Some c ->
                isSpace c = false)
  /\ (forall c, hd_error (rev (getFallbackIngredients draw)) = Some c ->
                isSpace c = false).
Proof.
  destruct draw; (split; [vm_compute; discriminate|]);
    (split; [vm_compute; reflexivity|]);
    split; intros c H; vm_compute in H; injection H as <-; reflexivity.
Qed.

Lemma ocr_text_length {CM : CaseMapping} ocr draw :
  3 <= len (processImageWithVisionAPI ocr draw).
Proof.
  unfold processImageWithVisionAPI.
  destruct ocr as [t|]; [|now destruct (fallback_clean draw)].
  cbv zeta.
  destruct (len (cleanOcrText _) <? 3) eqn:E;
    [now destruct (fallback_clean draw)|].
  destruct (isValidIngredientText _); [|now destruct (fallback_clean draw)].
  now apply Z.ltb_ge in E.
Qed.

(** X21. The text the image pipeline hands to the search, whatever the text
    detection returns or however it fails, and whichever fallback is
    drawn: it has three characters at least, holds only characters the
    cleaning keeps, has plain spaces as its only white space, and neither
    starts nor ends with white space. *)
Theorem ocr_text_for_search_is_clean {CM : CaseMapping} :
  forall (ocr : ocrOutcome) (draw : fallbackDraw),
    let text := processImageWithVisionAPI ocr draw in
    3 <= len text
    /\ (forall c, In c text ->
          isOcrNoise c = false /\ (isSpace c = true -> c = 32))
    /\ (forall c, hd_error text = Some c -> isSpace c = false)
    /\ (forall c, hd_error (rev text) = Some c -> isSpace c = false).
Proof.
  intros ocr draw. cbv zeta.
  assert (Hfb : let text := getFallbackIngredients draw in
                3 <= len text
                /\ (forall c, In c text ->
                      isOcrNoise c = false /\ (isSpace c = true -> c = 32))
                /\ (forall c, hd_error text = Some c -> isSpace c = false)
                /\ (forall c, hd_error (rev text) = Some c ->
                              isSpace c = false)).
  { cbv zeta. destruct (fallback_clean draw) as (H1 & H2 & H3 & H4).
    split; [exact H1|]. split; [|split; assumption].
    intros c Hc. apply cleanChar_spec.
    exact (proj1 (forallb_forall _ _) H2 c Hc). }
  unfold processImageWithVisionAPI.
  destruct ocr as [t|]; [|exact Hfb].
  cbv zeta. set (cleaned := cleanOcrText match t with Some x => x | None => [] end).
  destruct (len cleaned <? 3) eqn:E; [exact Hfb|].
  destruct (isValidIngredientText cleaned); [|exact Hfb].
  apply Z.ltb_ge in E. split; [exact E|].
  split; [intros c Hc; exact (cleanOcrText_chars _ c Hc)|].
  unfold cleaned, cleanOcrText. apply trim_ends.
Qed.

Lemma search_fulfilled {CM : CaseMapping} additiveData text reply st :
  exists results,
    searchAdditivesWithFuzzyMatching additiveData text reply st
    = (Fulfilled results, snd (getCachedAdditives additiveData reply st))
    /\ (List.length results <= 8)%nat
    /\ NoDup (map resultId results)
    /\ ((forall s, text <> JString s) -> results = []).
Proof.
  rewrite search_unfold.
  destruct text as [s| | |n];
    [ rewrite searchBody_string
    | exists []; repeat split; [simpl; lia | constructor] .. ].
  eexists. split; [reflexivity|]. split; [apply firstn_le_length|].
  split.
  - unfold slice0. rewrite <- firstn_map. apply NoDup_firstn.
    now destruct (removeDuplicatesAndSort_spec
                    (foundFor s (fst (getCachedAdditives additiveData
                                        reply st)))).
  - intros H. now destruct (H s).
Qed.

(** X22. The image endpoint never answers with the processing error: without a
    file it asks for one and leaves the cache alone; with a file it
    answers with a text of three characters at least and with at most
    eight additives of distinct ids. *)
Theorem processImage_always_completes {CM : CaseMapping} :
  forall (additiveData : list additive) (hasFile : bool) (ocr : ocrOutcome)
         (draw : fallbackDraw) (reply : storeReply) (st : cacheState),
    (hasFile = false ->
     processImage additiveData hasFile ocr draw reply st
     = (ImageRequired, st))
    /\ (hasFile = true ->
        exists extractedText additives,
          fst (processImage additiveData hasFile ocr draw reply st)
          = Completed extractedText additives
          /\ extractedText = processImageWithVisionAPI ocr draw
          /\ 3 <= len extractedText
          /\ (List.length additives <= 8)%nat
          /\ NoDup (map resultId additives))
    /\ fst (processImage additiveData hasFile ocr draw reply st)
       <> ProcessingFailed.
Proof.
  intros additiveData hasFile ocr draw reply st.
  unfold processImage. destruct hasFile; simpl.
  - set (text := processImageWithVisionAPI ocr draw).
    destruct (search_fulfilled additiveData (JString text) reply st)
      as (results & -> & Hlen & Hnd & _).
    simpl. split; [discriminate|]. split; [|discriminate].
    intros _. exists text, results. repeat split; try assumption.
    apply ocr_text_length.
  - split; [reflexivity|]. split; discriminate.
Qed.

(** X23. The text endpoint answers a request that has a body by asking for a
    text when [text] is missing or falsy, the cache left alone, and
    otherwise with at most eight additives, none at all when the text is
    not a string; it answers with the server error only when the request
    has no body. *)
Theorem searchByText_responses {CM : CaseMapping} :
  forall (additiveData : list additive) (text : jsvalue)
         (reply : storeReply) (st : cacheState),
    (truthy text = false ->
     searchByText additiveData (Some text) reply st = (TextRequired, st))
    /\ (truthy text = true ->
        exists additives,
          fst (searchByText additiveData (Some text) reply st)
          = Found additives
          /\ (List.length additives <= 8)%nat
          /\ ((forall s, text <> JString s) -> additives = []))
    /\ fst (searchByText additiveData (Some text) reply st) <> InternalError
    /\ searchByText additiveData None reply st = (InternalError, st).
Proof.
  intros additiveData text reply st. unfold searchByText.
  destruct (truthy text) eqn:E; simpl.
  - destruct (search_fulfilled additiveData text reply st)
      as (results & -> & Hlen & _ & Hnon).
    simpl. split; [discriminate|].
    split; [|split; [discriminate | reflexivity]].
    intros _. exists results. auto.
  - split; [reflexivity|]. split; [discriminate|].
    split; [discriminate | reflexivity].
Qed.
